(** * strata: layered interception pipeline and context-scoped layer state

    A shallow embedding of [include/strata.h].

    The header is template code.  What a template does when it is
    instantiated (which overload a call binds to, whether a detection trait
    answers true, whether the instantiation is well-formed at all) is
    modelled by functions into [build]; what the instantiated code does when
    it runs (calls of hooks, of the wrapped function, of observers) is
    modelled in the monad [M], which threads the mutable state, records every
    call made and carries exceptions. *)

From stdpp Require Import base option list strings gmap.
From Stdlib Require Import Lia.

Open Scope string_scope.
Open Scope list_scope.

(** ** Build results

    [BuildError]: the instantiation is ill-formed, there is no program. *)

Inductive build (X : Type) : Type :=
| Built (x : X)
| BuildError.

Arguments Built {X} x.
Arguments BuildError {X}.

Definition build_bind {X Y : Type} (b : build X) (k : X -> build Y) : build Y :=
  match b with
  | Built x => k x
  | BuildError => BuildError
  end.

Definition static_assert (cond : bool) : build unit :=
  if cond then Built tt else BuildError.

(** ** Run-time effects

    A computation ends normally, by a thrown exception, or with the process
    terminated ([std::terminate], reached when an exception leaves a
    destructor). *)

Inductive outcome (Exn X : Type) : Type :=
| Normal (x : X)
| Thrown (e : Exn)
| Terminated.

Arguments Normal {Exn X} x.
Arguments Thrown {Exn X} e.
Arguments Terminated {Exn X}.

Definition M (St Exn X : Type) : Type := St -> outcome Exn X * St.

Definition ret {St Exn X : Type} (x : X) : M St Exn X :=
  fun s => (Normal x, s).

Definition bind {St Exn X Y : Type} (m : M St Exn X) (k : X -> M St Exn Y) : M St Exn Y :=
  fun s =>
    match m s with
    | (Normal x, s') => k x s'
    | (Thrown e, s') => (Thrown e, s')
    | (Terminated, s') => (Terminated, s')
    end.

Declare Scope strata_scope.
Delimit Scope strata_scope with strata.

Notation "x <- c1 ;;; c2" := (bind c1 (fun x => c2))
  (at level 100, c1 at next level, right associativity) : strata_scope.
Notation "c1 ;;; c2" := (bind c1 (fun _ => c2))
  (at level 100, right associativity) : strata_scope.
Notation "'build!' x <- b1 ; b2" := (build_bind b1 (fun x => b2))
  (at level 100, x name, b1 at next level, b2 at level 200, right associativity) : strata_scope.

Open Scope strata_scope.

(** ** The pipeline: [LayerOp], [Strata::Exec] and the hook probes *)

Module Strata.

(** [Ret] of [LayerOp<Ret, Args...>]: all that [Exec] asks of it is whether
    it is [void]. *)
Inductive CType : Type := Void | NonVoid.

(** An operation type [struct Op : LayerOp<Ret, Args...> {}]. *)
Record LayerOp : Type := {
  op_name : string;
  ReturnType : CType
}.

(** The argument of a layer's member template [Impl]: an operation, or
    [void], at which the generic probes look. *)
Inductive TemplateArg : Type :=
| VoidArg
| OpArg (Op : LayerOp).

Section Pipeline.

(** [A]: the pack of arguments of one call of [Exec]; [V]: values of the
    operation's return type; [W]: everything the hooks and the wrapped
    function can read and write (the pipeline itself holds no state);
    [Exn]: exception objects.

    The argument pack is passed unchanged to every hook and to the wrapped
    function: hooks that consume a forwarded rvalue or write through a
    reference argument are outside this model. *)
Variables A V W Exn : Type.

Inductive Call : Type :=
| CallBefore (layer : string) (args : A)
| CallCore (args : A)
| CallAfter (layer : string) (result : option V) (args : A).

Record PState : Type := {
  world : W;
  calls : list Call
}.

Definition Prog (X : Type) : Type := M PState Exn X.

(** User code runs on [W] only; the call is recorded as it is made. *)
Definition invoke {X : Type} (c : Call) (body : W -> outcome Exn X * W) : Prog X :=
  fun st =>
    let (o, w') := body (world st) in
    (o, {| world := w'; calls := calls st ++ [c] |}).

(** A static member [Before] of some [Impl<X>].
    [before_named]: the name denotes one non-template function, so that
    [decltype(Impl<X>::Before)] is a type.
    [before_call]: what [Impl<X>::Before(args...)] does for the argument
    types of this call; [None] when that call is ill-formed. *)
Record BeforeMember : Type := {
  before_named : bool;
  before_call : option (A -> W -> outcome Exn unit * W)
}.

(** A static member [After] of some [Impl<X>].
    [after_call_result]: the call [After(result, args...)], which may
    rewrite the referenced result; [after_call_args]: the call
    [After(args...)]. *)
Record AfterMember : Type := {
  after_named : bool;
  after_call_result : option (V -> A -> W -> outcome Exn V * W);
  after_call_args : option (A -> W -> outcome Exn unit * W)
}.

Record ImplStruct : Type := {
  Before : option BeforeMember;
  After : option AfterMember
}.

(** A layer type is its member template [Impl]: [Impl L X] is the struct
    [L::Impl<X>] (an explicit specialisation for [X] if the layer declares
    one, else the primary template at [X]); [None] when [L::Impl<X>] is
    incomplete or [L] has no [Impl]. *)
Record Layer : Type := {
  layer_name : string;
  Impl : TemplateArg -> option ImplStruct
}.

Definition member_Before (L : Layer) (X : TemplateArg) : option BeforeMember :=
  s ← Impl L X; Before s.

Definition member_After (L : Layer) (X : TemplateArg) : option AfterMember :=
  s ← Impl L X; After s.

(** *** SFINAE helpers (strata.h 145-184) *)

(** [std::void_t<decltype(Layer::template Impl<Op>::Before)>] *)
Definition has_specific_before_impl (L : Layer) (Op : LayerOp) : bool :=
  match member_Before L (OpArg Op) with
  | Some m => before_named m
  | None => false
  end.

(** [std::void_t<decltype(Layer::template Impl<Op>::After)>] *)
Definition has_specific_after_impl (L : Layer) (Op : LayerOp) : bool :=
  match member_After L (OpArg Op) with
  | Some m => after_named m
  | None => false
  end.

(** [decltype(T::template Impl<void>::Before(std::declval<Args>()...), std::true_type {})] *)
Definition has_generic_before_impl (L : Layer) : bool :=
  match member_Before L VoidArg with
  | Some m => bool_decide (is_Some (before_call m))
  | None => false
  end.

(** [decltype(T::template Impl<void>::After(std::declval<ReturnT&>(), std::declval<Args>()...), std::true_type {})]

    With [ReturnT = void] (line 141) the operand names [void&], which is
    not a type: [test(int)] drops out and [test(...)] answers [false_type],
    whatever the layer declares.  The tests run void operations through
    layers that have no [After] for them (MetricsTracking,
    ContextSpecificState), so the probe answers there and does not stop the
    build. *)
Definition has_generic_after_impl (L : Layer) (ReturnT : CType) : bool :=
  match ReturnT with
  | Void => false
  | NonVoid =>
      match member_After L VoidArg with
      | Some m => bool_decide (is_Some (after_call_result m))
      | None => false
      end
  end.

(** *** The calls the hooks are reached by *)

(** [Layer::template Impl<Op>::Before(std::forward<Args>(args)...)] *)
Definition call_Before (L : Layer) (Op : LayerOp) (args : A) : build (Prog unit) :=
  match member_Before L (OpArg Op) with
  | Some m =>
      match before_call m with
      | Some h => Built (invoke (CallBefore (layer_name L) args) (h args))
      | None => BuildError
      end
  | None => BuildError
  end.

(** [First::template Impl<Op>::After(result, std::forward<Args>(args)...)] *)
Definition call_After_result (L : Layer) (Op : LayerOp) (args : A) : build (V -> Prog V) :=
  match member_After L (OpArg Op) with
  | Some m =>
      match after_call_result m with
      | Some h => Built (fun result => invoke (CallAfter (layer_name L) (Some result) args) (h result args))
      | None => BuildError
      end
  | None => BuildError
  end.

(** [First::template Impl<Op>::After(std::forward<Args>(args)...)] *)
Definition call_After_args (L : Layer) (Op : LayerOp) (args : A) : build (Prog unit) :=
  match member_After L (OpArg Op) with
  | Some m =>
      match after_call_args m with
      | Some h => Built (invoke (CallAfter (layer_name L) None args) (h args))
      | None => BuildError
      end
  | None => BuildError
  end.

(** *** [ApplyBeforeIfExists] (strata.h 109-116) *)

Definition ApplyBeforeIfExists (Op : LayerOp) (L : Layer) (args : A) : build (Prog unit) :=
  if has_specific_before_impl L Op then call_Before L Op args
  else if has_generic_before_impl L then call_Before L Op args
  else Built (ret tt).

(** The fold [(ApplyBeforeIfExists<Op, Layers>(args...), ...)] of line 87:
    one call per layer, left to right; [void()] for the empty pack. *)
Fixpoint ApplyBeforeFold (Op : LayerOp) (Layers : list Layer) (args : A) : build (Prog unit) :=
  match Layers with
  | [] => Built (ret tt)
  | L :: Ls =>
      build! first <- ApplyBeforeIfExists Op L args;
      build! others <- ApplyBeforeFold Op Ls args;
      Built (first ;;; others)
  end.

(** *** [ApplyAfterIfExists], value-returning operations (strata.h 120-130) *)

Fixpoint ApplyAfterIfExists_result (Op : LayerOp) (First : Layer) (Rest : list Layer) (args : A)
  : build (V -> Prog V) :=
  build! inner <-
    match Rest with
    | [] => Built (fun result => ret result)
    | R :: Rs => ApplyAfterIfExists_result Op R Rs args
    end;
  build! own <-
    (if has_specific_after_impl First Op then call_After_result First Op args
     else if has_generic_after_impl First NonVoid then call_After_result First Op args
     else Built (fun result => ret result));
  Built (fun result => r <- inner result ;;; own r).

(** *** [ApplyAfterIfExists], void-returning operations (strata.h 133-143) *)

Fixpoint ApplyAfterIfExists_void (Op : LayerOp) (First : Layer) (Rest : list Layer) (args : A)
  : build (Prog unit) :=
  build! inner <-
    match Rest with
    | [] => Built (ret tt)
    | R :: Rs => ApplyAfterIfExists_void Op R Rs args
    end;
  build! own <-
    (if has_specific_after_impl First Op then call_After_args First Op args
     else if has_generic_after_impl First Void then call_After_args First Op args
     else Built (ret tt));
  Built (inner ;;; own).

(** A type that is not a layer: it has no member template [Impl]. *)
Definition not_a_layer : Layer :=
  {| layer_name := ""; Impl := fun _ => None |}.

(** Line 97, [ApplyAfterIfExists<Op, typename Op::ReturnType, Layers...>(result, args...)].
    With layers, the overload of line 120 is the more specialised one.
    With the empty pack that overload cannot deduce [First]; the call binds
    to the overload of line 133 with [First = ReturnType] and
    [Args = ReturnType&, Args...], and a return type has no [Impl]. *)
Definition ApplyAfter_line97 (Op : LayerOp) (Layers : list Layer) (args : A) : build (V -> Prog V) :=
  match Layers with
  | First :: Rest => ApplyAfterIfExists_result Op First Rest args
  | [] =>
      build! p <- ApplyAfterIfExists_void Op not_a_layer [] args;
      Built (fun result => p ;;; ret result)
  end.

(** Line 92, [ApplyAfterIfExists<Op, Layers...>(args...)].  With the empty
    pack neither overload can deduce [First]: no function matches. *)
Definition ApplyAfter_line92 (Op : LayerOp) (Layers : list Layer) (args : A) : build (Prog unit) :=
  match Layers with
  | First :: Rest => ApplyAfterIfExists_void Op First Rest args
  | [] => BuildError
  end.

(** *** [Exec] (strata.h 65-102) *)

(** The callable handed to [Exec], by what its call returns. *)
Inductive Func : Type :=
| VoidFunc (f : A -> W -> outcome Exn unit * W)
| ValueFunc (f : A -> W -> outcome Exn V * W).

(** [Op::template validates_function<Func>]: the call is well-formed and its
    result converts to [Op::ReturnType]; only [void] converts to [void]. *)
Definition validates_function (Op : LayerOp) (func : Func) : bool :=
  match ReturnType Op, func with
  | Void, VoidFunc _ => true
  | NonVoid, ValueFunc _ => true
  | _, _ => false
  end.

(** What [Exec] hands back: nothing for [void], else the result. *)
Inductive Returned : Type :=
| ReturnedVoid
| ReturnedValue (v : V).

(** A statement either falls through to the next one ([None]) or returns
    from [Exec] ([Some r]). *)
Definition Stmt : Type := Prog (option Returned).

Definition then_ (s1 s2 : Stmt) : Stmt :=
  o <- s1 ;;;
  match o with
  | Some r => ret (Some r)
  | None => s2
  end.

(** Falling off the end of the function body is the return of a [void]
    function. *)
Definition body (s : Stmt) : Prog Returned :=
  o <- s ;;;
  match o with
  | Some r => ret r
  | None => ret ReturnedVoid
  end.

(** The body of [Exec] for a void operation, lines 72-100, over the calls
    it is instantiated with.  The block of lines 73-79 has no [return] on
    its void side and no [else] after it: control goes on to line 87. *)
Definition Exec_void_body (Layers : list Layer) (befores CORE_FUNC afters : Prog unit)
  : Prog Returned :=
  body
    (then_
       (* 73-79 *)
       (match Layers with
        | [] => CORE_FUNC ;;; ret None
        | _ :: _ => ret None
        end)
    (then_
       (* 87 *)
       (befores ;;; ret None)
       (* 89-93 *)
       (CORE_FUNC ;;; afters ;;; ret None))).

(** The body of [Exec] for a value-returning operation. *)
Definition Exec_value_body (Layers : list Layer) (befores : Prog unit) (CORE_FUNC : Prog V)
    (afters : V -> Prog V) : Prog Returned :=
  body
    (then_
       (* 73-79 *)
       (match Layers with
        | [] => r <- CORE_FUNC ;;; ret (Some (ReturnedValue r))
        | _ :: _ => ret None
        end)
    (then_
       (* 87 *)
       (befores ;;; ret None)
       (* 94-99 *)
       (result <- CORE_FUNC ;;;
        result' <- afters result ;;;
        ret (Some (ReturnedValue result'))))).

(** Lines 81-85 ([#ifdef DEBUG]) only name types and are left out. *)
Definition Exec (Layers : list Layer) (Op : LayerOp) (func : Func) (args : A) : build (Prog Returned) :=
  build! _ <- static_assert (validates_function Op func);
  build! befores <- ApplyBeforeFold Op Layers args;
  match ReturnType Op, func with
  | Void, VoidFunc f =>
      build! afters <- ApplyAfter_line92 Op Layers args;
      Built (Exec_void_body Layers befores (invoke (CallCore args) (f args)) afters)
  | NonVoid, ValueFunc f =>
      build! afters <- ApplyAfter_line97 Op Layers args;
      Built (Exec_value_body Layers befores (invoke (CallCore args) (f args)) afters)
  | _, _ => BuildError
  end.

End Pipeline.

End Strata.

Arguments Strata.CallBefore {A V} layer args.
Arguments Strata.CallCore {A V} args.
Arguments Strata.CallAfter {A V} layer result args.
Arguments Strata.world {A V W} p.
Arguments Strata.calls {A V W} p.
Arguments Strata.invoke {A V W Exn X} c body.
Arguments Strata.before_named {A W Exn} b.
Arguments Strata.before_call {A W Exn} b.
Arguments Strata.after_named {A V W Exn} a.
Arguments Strata.after_call_result {A V W Exn} a.
Arguments Strata.after_call_args {A V W Exn} a.
Arguments Strata.Before {A V W Exn} i.
Arguments Strata.After {A V W Exn} i.
Arguments Strata.layer_name {A V W Exn} l.
Arguments Strata.Impl {A V W Exn} l.
Arguments Strata.member_Before {A V W Exn} L X.
Arguments Strata.member_After {A V W Exn} L X.
Arguments Strata.has_specific_before_impl {A V W Exn} L Op.
Arguments Strata.has_specific_after_impl {A V W Exn} L Op.
Arguments Strata.has_generic_before_impl {A V W Exn} L.
Arguments Strata.has_generic_after_impl {A V W Exn} L ReturnT.
Arguments Strata.call_Before {A V W Exn} L Op args.
Arguments Strata.call_After_result {A V W Exn} L Op args.
Arguments Strata.call_After_args {A V W Exn} L Op args.
Arguments Strata.ApplyBeforeIfExists {A V W Exn} Op L args.
Arguments Strata.ApplyBeforeFold {A V W Exn} Op Layers args.
Arguments Strata.ApplyAfterIfExists_result {A V W Exn} Op First Rest args.
Arguments Strata.ApplyAfterIfExists_void {A V W Exn} Op First Rest args.
Arguments Strata.ApplyAfter_line97 {A V W Exn} Op Layers args.
Arguments Strata.ApplyAfter_line92 {A V W Exn} Op Layers args.
Arguments Strata.VoidFunc {A V W Exn} f.
Arguments Strata.ValueFunc {A V W Exn} f.
Arguments Strata.validates_function {A V W Exn} Op func.
Arguments Strata.ReturnedVoid {V}.
Arguments Strata.ReturnedValue {V} v.
Arguments Strata.then_ {A V W Exn} s1 s2.
Arguments Strata.body {A V W Exn} s.
Arguments Strata.Exec_void_body {A V W Exn} Layers befores CORE_FUNC afters.
Arguments Strata.Exec_value_body {A V W Exn} Layers befores CORE_FUNC afters.
Arguments Strata.Exec {A V W Exn} Layers Op func args.

(** ** [LayerTraits] and [util::LayerFilter] (strata.h 187-310) *)

Module util.

Section Filter.

(** [Name]: the class types the program declares. *)
Variable Name : Type.

(** The types handed to the utilities: a declared type, or a
    [LayerPack<Layers...>], which is [std::tuple<Layers...>]. *)
#[local] Unset Elimination Schemes.
Inductive Ty : Type :=
| UserType (n : Name)
| LayerPack (Layers : list Ty).
#[local] Set Elimination Schemes.

(** The explicit specialisations of [LayerTraits] the program declares:
    [Some b] for [template<> struct LayerTraits<T> { static constexpr bool
    compiletimeEnabled = b; };], [None] when there is none for [T]. *)
Variable specialisation : Ty -> option bool.

(** [LayerTraits<T>::compiletimeEnabled]; the primary template (line 191)
    says [false]. *)
Definition compiletimeEnabled (T : Ty) : bool :=
  match specialisation T with
  | Some b => b
  | None => false
  end.

Definition IsLayerEnabled (Layer : Ty) : bool := compiletimeEnabled Layer.

(** The type [Strata<Layers...>]. *)
Inductive Pipeline : Type :=
| Strata (Layers : list Ty).

Definition Layers_of (P : Pipeline) : list Ty :=
  match P with Strata Layers => Layers end.

(** [Strata<Layers...>::PrependLayer<NewLayer>] (line 106) *)
Definition PrependLayer (P : Pipeline) (NewLayer : Ty) : Pipeline :=
  match P with Strata Layers => Strata (NewLayer :: Layers) end.

(** [detail::EnabledLayers] (lines 260-273) *)
Fixpoint EnabledLayers (AllLayers : list Ty) : Pipeline :=
  match AllLayers with
  | [] => Strata []
  | FirstLayer :: RestLayers =>
      if compiletimeEnabled FirstLayer
      then PrependLayer (EnabledLayers RestLayers) FirstLayer
      else EnabledLayers RestLayers
  end.

(** [detail::LayerFilterImpl] (lines 276-287): the partial specialisation
    is chosen when the only argument is a [LayerPack]. *)
Definition LayerFilterImpl (Layers : list Ty) : Pipeline :=
  match Layers with
  | [LayerPack Packed] => EnabledLayers Packed
  | _ => EnabledLayers Layers
  end.

Definition LayerFilter (Layers : list Ty) : Pipeline := LayerFilterImpl Layers.

(** [detail::CountEnabledLayersImpl]: [(0 + ... + IsLayerEnabled<Layers>)] *)
Definition CountEnabledLayers (Layers : list Ty) : nat :=
  foldr (fun L n => (if IsLayerEnabled L then 1 else 0) + n) 0 Layers.

(** [detail::AnyLayersEnabledImpl]: [(... || IsLayerEnabled<Layers>)] *)
Definition AnyLayersEnabled (Layers : list Ty) : bool :=
  foldr (fun L b => IsLayerEnabled L || b) false Layers.

(** [detail::EnabledLayerInfoImpl::enabled] *)
Definition EnabledLayerInfo (Layers : list Ty) : list bool :=
  map IsLayerEnabled Layers.

End Filter.

End util.

Arguments util.UserType {Name} n.
Arguments util.LayerPack {Name} Layers.
Arguments util.Strata {Name} Layers.
Arguments util.Layers_of {Name} P.
Arguments util.PrependLayer {Name} P NewLayer.
Arguments util.compiletimeEnabled {Name} specialisation T.
Arguments util.IsLayerEnabled {Name} specialisation Layer.
Arguments util.EnabledLayers {Name} specialisation AllLayers.
Arguments util.LayerFilterImpl {Name} specialisation Layers.
Arguments util.LayerFilter {Name} specialisation Layers.

(** ** [LayerState<T>] and [LayerStateWrapper<T>] (strata.h 317-378, 456-482)

    One thread is modelled: [mutex_] and the locks taken on it are left
    out. *)

Module LayerState.

Section Store.

(** [T]: the state type; [W]: what the observers and the callers' lambdas
    capture.  An observer gets [const T&] and, as the header requires, does
    not call back into the store it observes. *)
Variables T W Exn : Type.

Definition Observer : Type := T -> W -> outcome Exn unit * W.

Record LayerState : Type := {
  data_ : T;
  observers_ : list Observer
}.

(** One call [observer(data_)]: the position of the observer in
    [observers_] and the value it was handed. *)
Inductive Notification : Type :=
| Notify (index : nat) (value : T).

Record SState : Type := {
  store : LayerState;
  env : W;
  notified : list Notification
}.

Definition Prog (X : Type) : Type := M SState Exn X.

(** [observer(data_)] *)
Definition call_observer (index : nat) (observer : Observer) : Prog unit :=
  fun st =>
    let (o, w') := observer (data_ (store st)) (env st) in
    (o, {| store := store st; env := w';
           notified := notified st ++ [Notify index (data_ (store st))] |}).

(** [for (const auto& observer : observers_) observer(data_);] *)
Fixpoint notify_loop (index : nat) (observers : list Observer) : Prog unit :=
  match observers with
  | [] => ret tt
  | observer :: rest => call_observer index observer ;;; notify_loop (S index) rest
  end.

Definition notifyObservers : Prog unit :=
  fun st => notify_loop 0 (observers_ (store st)) st.

Definition read : Prog T :=
  fun st => (Normal (data_ (store st)), st).

Definition assign_data (newData : T) : Prog unit :=
  fun st =>
    (Normal tt,
     {| store := {| data_ := newData; observers_ := observers_ (store st) |};
        env := env st; notified := notified st |}).

Definition write (newData : T) : Prog unit :=
  assign_data newData ;;; notifyObservers.

(** Code that is handed the state by reference: it may change it and what
    it captured, and may throw part-way. *)
Definition Accessor (X : Type) : Type := T -> W -> outcome Exn X * (T * W).

Definition on_data {X : Type} (func : Accessor X) : Prog X :=
  fun st =>
    let '(o, (d', w')) := func (data_ (store st)) (env st) in
    (o,
     {| store := {| data_ := d'; observers_ := observers_ (store st) |};
        env := w'; notified := notified st |}).

Definition modify (func : Accessor unit) : Prog unit :=
  on_data func ;;; notifyObservers.

Definition addObserver (observer : Observer) : Prog unit :=
  fun st =>
    (Normal tt,
     {| store := {| data_ := data_ (store st);
                    observers_ := observers_ (store st) ++ [observer] |};
        env := env st; notified := notified st |}).

(** [~Proxy() { state_.notifyObservers(); }]: a destructor is [noexcept];
    an exception that leaves it ends the process. *)
Definition Proxy_destructor : Prog unit :=
  fun st =>
    match notifyObservers st with
    | (Thrown _, st') => (Terminated, st')
    | r => r
    end.

(** [access()] hands out the one [Proxy] (a prvalue, never copied).
    [scope] is the code that runs while that proxy lives and reaches
    [data_] through its [operator->]; the destructor runs on every way out
    of the scope. *)
Definition access {X : Type} (scope : Accessor X) : Prog X :=
  fun st =>
    match on_data scope st with
    | (Normal x, st1) => (Proxy_destructor ;;; ret x) st1
    | (Thrown e, st1) =>
        match Proxy_destructor st1 with
        | (Normal _, st2) => (Thrown e, st2)
        | (_, st2) => (Terminated, st2)
        end
    | (Terminated, st1) => (Terminated, st1)
    end.

(** *** [LayerStateWrapper<T>]: every member forwards to [*state_] *)

(** [operator->()] and [operator->() const] both are
    [return state_->access();].  [use] is what the full-expression does
    with the member it reaches; the temporary proxy dies at its end. *)
Definition Wrapper_arrow {X : Type} (const_overload : bool) (use : Accessor X) : Prog X :=
  if const_overload then access use else access use.

Definition Wrapper_read : Prog T := read.

Definition Wrapper_write (newData : T) : Prog unit := write newData.

Definition Wrapper_modify (func : Accessor unit) : Prog unit := modify func.

Definition Wrapper_addObserver (observer : Observer) : Prog unit := addObserver observer.

(** The three mutating entry points, for statements that hold of each. *)
Inductive Mutation : Type :=
| ByWrite (newData : T)
| ByModify (func : Accessor unit)
| ByAccess (scope : Accessor unit).

Definition run_mutation (m : Mutation) : Prog unit :=
  match m with
  | ByWrite newData => write newData
  | ByModify func => modify func
  | ByAccess scope => access scope
  end.

(** The part of a mutation that precedes the notification. *)
Definition mutation_step (m : Mutation) : Prog unit :=
  match m with
  | ByWrite newData => assign_data newData
  | ByModify func => on_data func
  | ByAccess scope => on_data scope
  end.

(** A use of the state that only looks at it. *)
Definition read_only {X : Type} (look : T -> X) : Accessor X :=
  fun d w => (Normal (look d), (d, w)).

(** Every observer of the vector once, in the order of the vector, shown
    [value]: [Notify first value; Notify (first + 1) value; ...]. *)
Definition each_once (first : nat) (observers : list Observer) (value : T)
  : list Notification :=
  map (fun index => Notify index value) (seq first (length observers)).

(** What the observers leave in what they captured when each is called
    once with [value], in the order of the vector, each starting from what
    the one before it left; [None] when one of them does not return. *)
Fixpoint observers_leave (observers : list Observer) (value : T) (w : W) : option W :=
  match observers with
  | [] => Some w
  | observer :: rest =>
      match observer value w with
      | (Normal _, w') => observers_leave rest value w'
      | _ => None
      end
  end.

End Store.

End LayerState.

Arguments LayerState.data_ {T W Exn} l.
Arguments LayerState.observers_ {T W Exn} l.
Arguments LayerState.Notify {T} index value.
Arguments LayerState.store {T W Exn} s.
Arguments LayerState.env {T W Exn} s.
Arguments LayerState.notified {T W Exn} s.
Arguments LayerState.call_observer {T W Exn} index observer.
Arguments LayerState.notify_loop {T W Exn} index observers.
Arguments LayerState.notifyObservers {T W Exn}.
Arguments LayerState.read {T W Exn}.
Arguments LayerState.assign_data {T W Exn} newData.
Arguments LayerState.write {T W Exn} newData.
Arguments LayerState.on_data {T W Exn X} func.
Arguments LayerState.modify {T W Exn} func.
Arguments LayerState.addObserver {T W Exn} observer.
Arguments LayerState.Proxy_destructor {T W Exn}.
Arguments LayerState.access {T W Exn X} scope.
Arguments LayerState.Wrapper_arrow {T W Exn X} const_overload use.
Arguments LayerState.Wrapper_read {T W Exn}.
Arguments LayerState.Wrapper_write {T W Exn} newData.
Arguments LayerState.Wrapper_modify {T W Exn} func.
Arguments LayerState.Wrapper_addObserver {T W Exn} observer.
Arguments LayerState.ByWrite {T W Exn} newData.
Arguments LayerState.ByModify {T W Exn} func.
Arguments LayerState.ByAccess {T W Exn} scope.
Arguments LayerState.run_mutation {T W Exn} m.
Arguments LayerState.mutation_step {T W Exn} m.
Arguments LayerState.read_only {T W Exn X} look.
Arguments LayerState.each_once {T W Exn} first observers value.
Arguments LayerState.observers_leave {T W Exn} observers value w.

(** ** [LayerStateRegistry] and [LayerStateManager<T>] (strata.h 380-454, 484-521)

    The registry owns the stores through [shared_ptr]; a handle is the
    address of the store it shares.  What the stores hold is the business of
    [LayerState]; here a store is its address, which is what tells two
    handles to one store from handles to two. *)

Module LayerStateRegistry.

(** [std::type_index(typeid(T))] *)
Definition type_index : Type := string.

(** The singleton of [GetInstance()].  [fresh_]: the address the next
    [std::make_shared] returns; addresses are not handed out twice. *)
Record Registry : Type := {
  states_ : gmap type_index (gmap string nat);
  fresh_ : nat
}.

(** The registry at process start. *)
Definition instance : Registry :=
  {| states_ := ∅; fresh_ := 0 |}.

(** The thread-local part: [static inline thread_local std::string
    currentContext;] (line 392). *)
Record ThreadLocal : Type := {
  currentContext : string
}.

(** A thread that has not touched its context: a default-constructed
    [std::string]. *)
Definition thread_start : ThreadLocal :=
  {| currentContext := "" |}.

Definition setCurrentContext (context : string) (t : ThreadLocal) : ThreadLocal :=
  {| currentContext := context |}.

Definition getCurrentContext (t : ThreadLocal) : string :=
  currentContext t.

(** [states_[type][key]], when both levels are there. *)
Definition find_state (T : type_index) (key : string) (r : Registry) : option nat :=
  typeMap ← states_ r !! T; typeMap !! key.

(** [getOrCreateState<T>(key)]: [states_[type]] creates the inner map when
    it is missing. *)
Definition getOrCreateState (T : type_index) (key : string) (r : Registry) : nat * Registry :=
  let typeMap := default ∅ (states_ r !! T) in
  match typeMap !! key with
  | None =>
      let newState := fresh_ r in
      (newState,
       {| states_ := <[T := <[key := newState]> typeMap]> (states_ r);
          fresh_ := S (fresh_ r) |})
  | Some found =>
      (found, {| states_ := <[T := typeMap]> (states_ r); fresh_ := fresh_ r |})
  end.

Definition clear (r : Registry) : Registry :=
  {| states_ := ∅; fresh_ := fresh_ r |}.

Definition removeState (T : type_index) (key : string) (r : Registry) : Registry :=
  match states_ r !! T with
  | Some typeMap => {| states_ := <[T := delete key typeMap]> (states_ r); fresh_ := fresh_ r |}
  | None => r
  end.

(** What the registry's own operations keep true: every registered address
    has been handed out, and no address is registered twice. *)
Definition consistent (r : Registry) : Prop :=
  (forall T key p, find_state T key r = Some p -> p < fresh_ r) /\
  (forall T1 key1 T2 key2 p,
     find_state T1 key1 r = Some p -> find_state T2 key2 r = Some p ->
     T1 = T2 /\ key1 = key2).

End LayerStateRegistry.

Module LayerStateManager.

Import LayerStateRegistry.

(** A [LayerStateWrapper<T>]: the [state_] pointer it holds. *)
Definition LayerStateWrapper : Type := nat.

Definition global (T : type_index) (r : Registry) : LayerStateWrapper * Registry :=
  getOrCreateState T "global" r.

Definition current (T : type_index) (t : ThreadLocal) (r : Registry) : LayerStateWrapper * Registry :=
  getOrCreateState T (getCurrentContext t) r.

Definition forContext (T : type_index) (context : string) (r : Registry) : LayerStateWrapper * Registry :=
  getOrCreateState T context r.

Definition removeState (T : type_index) (context : string) (r : Registry) : Registry :=
  LayerStateRegistry.removeState T context r.

End LayerStateManager.

(** ** Sample programs

    Layers, operations and traits after the ones of [Tests/] and
    [Benchmarks/], as inputs on which the definitions above can be run. *)

Module Samples.

Import Strata.

#[global] Instance CType_eq_dec : EqDecision CType.
Proof. solve_decision. Defined.

#[global] Instance LayerOp_eq_dec : EqDecision LayerOp.
Proof. solve_decision. Defined.

#[global] Instance TemplateArg_eq_dec : EqDecision TemplateArg.
Proof. solve_decision. Defined.

(** [struct LayerOpAdd : LayerOp<int, int, int> {};] *)
Definition LayerOpAdd : LayerOp :=
  {| op_name := "LayerOpAdd"; ReturnType := NonVoid |}.

(** A void operation on the same arguments, [LayerOp<void, int, int>]. *)
Definition LayerOpStore : LayerOp :=
  {| op_name := "LayerOpStore"; ReturnType := Void |}.

(** What the sample hooks and functions touch. *)
Record World : Type := {
  operationCount : nat;
  Log : list Z
}.

Definition Args : Type := (Z * Z)%type.

Definition SampleLayer : Type := Layer Args Z World string.

(** [int Add(int a, int b) { return a + b; }] *)
Definition Add : Func Args Z World string :=
  ValueFunc (fun '(a, b) w => (Normal (a + b)%Z, w)).

(** A void function that leaves the sum in the log. *)
Definition store_sum : Args -> World -> outcome string unit * World :=
  fun '(a, b) w =>
    (Normal tt, {| operationCount := operationCount w; Log := Log w ++ [(a + b)%Z] |}).

Definition Store : Func Args Z World string := VoidFunc store_sum.

(** A wrapped function that throws. *)
Definition Failing : Func Args Z World string :=
  ValueFunc (fun _ w => (Thrown "core failed", w)).

(** [MetricsLayer]: the primary template of [Impl] has a variadic
    [Before] template and nothing else. *)
Definition MetricsLayer : SampleLayer :=
  {| layer_name := "MetricsLayer";
     Impl := fun _ =>
       Some {| Before := Some {| before_named := false;
                                 before_call := Some (fun _ w =>
                                   (Normal tt, {| operationCount := S (operationCount w);
                                                  Log := Log w |})) |};
               After := None |} |}.

(** [LoggingLayer]: [Impl] is only declared; the specialisation for
    [LayerOpAdd] has [After(int& result, int a, int b)]. *)
Definition LoggingLayer : SampleLayer :=
  {| layer_name := "LoggingLayer";
     Impl := fun X =>
       if decide (X = OpArg LayerOpAdd)
       then Some {| Before := None;
                    After := Some {| after_named := true;
                                     after_call_result := Some (fun result _ w =>
                                       (Normal result, {| operationCount := operationCount w;
                                                          Log := Log w ++ [result] |}));
                                     after_call_args := None |} |}
       else None |}.

(** [if (a < 0 || b < 0) throw std::invalid_argument("Negative numbers not allowed");] *)
Definition validate : Args -> World -> outcome string unit * World :=
  fun '(a, b) w =>
    if bool_decide (a < 0 \/ b < 0)%Z
    then (Thrown "Negative numbers not allowed", w)
    else (Normal tt, w).

(** [ValidationLayer]: the specialisation for [LayerOpAdd] has
    [Before(int a, int b)], which throws on a negative argument. *)
Definition ValidationLayer : SampleLayer :=
  {| layer_name := "ValidationLayer";
     Impl := fun X =>
       if decide (X = OpArg LayerOpAdd)
       then Some {| Before := Some {| before_named := true;
                                      before_call := Some validate |};
                    After := None |}
       else None |}.

(** Two layers whose [After] for [LayerOpAdd] rewrites the result. *)
Definition rewriting_layer (name : string) (rewrite_result : Z -> Z) : SampleLayer :=
  {| layer_name := name;
     Impl := fun X =>
       if decide (X = OpArg LayerOpAdd)
       then Some {| Before := None;
                    After := Some {| after_named := true;
                                     after_call_result := Some (fun result _ w =>
                                       (Normal (rewrite_result result), w));
                                     after_call_args := None |} |}
       else None |}.

Definition DoublingLayer : SampleLayer := rewriting_layer "DoublingLayer" (fun r => (2 * r)%Z).

Definition IncrementLayer : SampleLayer := rewriting_layer "IncrementLayer" (fun r => (r + 1)%Z).

(** A layer that is generic in both hooks: the primary template of [Impl]
    has [template <typename... Args> static void Before(Args&&...)] and
    [template <typename... Args> static void After(Args&&...)], which
    accept any argument list, with or without a leading result. *)
Definition TimerLayer : SampleLayer :=
  {| layer_name := "TimerLayer";
     Impl := fun _ =>
       let tick := fun (w : World) => {| operationCount := S (operationCount w); Log := Log w |} in
       Some {| Before := Some {| before_named := false;
                                 before_call := Some (fun _ w => (Normal tt, tick w)) |};
               After := Some {| after_named := false;
                                after_call_result := Some (fun result _ w => (Normal result, tick w));
                                after_call_args := Some (fun _ w => (Normal tt, tick w)) |} |} |}.

Definition initial : PState Args Z World :=
  {| world := {| operationCount := 0; Log := [] |}; calls := [] |}.

(** Running what [Exec] built, if it built anything. *)
Definition run (b : build (Prog Args Z World string (Returned Z)))
  : option (outcome string (Returned Z) * PState Args Z World) :=
  match b with
  | Built p => Some (p initial)
  | BuildError => None
  end.

(** The program [Exec] built. *)
Definition built (b : build (Prog Args Z World string (Returned Z)))
  : Prog Args Z World string (Returned Z) :=
  match b with
  | Built p => p
  | BuildError => fun st => (Terminated, st)
  end.

Definition calls_made (b : build (Prog Args Z World string (Returned Z)))
  : option (list (Call Args Z)) :=
  option_map (fun r => calls (snd r)) (run b).

(** [LayerFilter<LoggingLayer, MetricsLayer, ValidationLayer>], all three
    enabled. *)
Definition three_layers : list SampleLayer :=
  [LoggingLayer; MetricsLayer; ValidationLayer].

(** The traits of [Tests/LayerUtilTests.cpp]; [Layer4] has no
    specialisation. *)
Definition test_traits (T : util.Ty string) : option bool :=
  match T with
  | util.UserType "Layer1" => Some true
  | util.UserType "Layer2" => Some false
  | util.UserType "Layer3" => Some true
  | _ => None
  end.

(** A store of one number with two observers that write down what they
    are shown. *)
Definition recorder (tag : Z) : LayerState.Observer Z (list (Z * Z)) string :=
  fun value seen => (Normal tt, seen ++ [(tag, value)]).

Definition observed_store : LayerState.SState Z (list (Z * Z)) string :=
  {| LayerState.store := {| LayerState.data_ := 0%Z;
                            LayerState.observers_ := [recorder 1; recorder 2] |};
     LayerState.env := [];
     LayerState.notified := [] |}.

End Samples.

(** ** The hooks a layer resolves to, and the order the design asks for *)

Module Resolution.

Import Strata.

Section Resolution.

Variables A V W Exn : Type.

(** The hook [ApplyBeforeIfExists] reaches (lines 112-115): under either
    probe the call goes to [Impl<Op>::Before]. *)
Definition resolved_before (Op : LayerOp) (L : Layer A V W Exn)
  : option (A -> W -> outcome Exn unit * W) :=
  if has_specific_before_impl L Op || has_generic_before_impl L
  then m ← member_Before L (OpArg Op); before_call m
  else None.

(** The hook the value overload of [ApplyAfterIfExists] reaches (lines
    126-129). *)
Definition resolved_after_result (Op : LayerOp) (L : Layer A V W Exn)
  : option (V -> A -> W -> outcome Exn V * W) :=
  if has_specific_after_impl L Op || has_generic_after_impl L NonVoid
  then m ← member_After L (OpArg Op); after_call_result m
  else None.

(** The hook the void overload of [ApplyAfterIfExists] reaches (lines
    139-142). *)
Definition resolved_after_args (Op : LayerOp) (L : Layer A V W Exn)
  : option (A -> W -> outcome Exn unit * W) :=
  if has_specific_after_impl L Op || has_generic_after_impl L Void
  then m ← member_After L (OpArg Op); after_call_args m
  else None.

Definition has_resolved_before (Op : LayerOp) (L : Layer A V W Exn) : bool :=
  bool_decide (is_Some (resolved_before Op L)).

Definition has_resolved_after (Op : LayerOp) (L : Layer A V W Exn) : bool :=
  match ReturnType Op with
  | NonVoid => bool_decide (is_Some (resolved_after_result Op L))
  | Void => bool_decide (is_Some (resolved_after_args Op L))
  end.

(** The design's words for step 3: each layer's resolved before hook, in
    the order given. *)
Fixpoint before_chain (Op : LayerOp) (order : list (Layer A V W Exn)) (args : A)
  : Prog A V W Exn unit :=
  match order with
  | [] => ret tt
  | L :: later =>
      match resolved_before Op L with
      | Some h => invoke (CallBefore (layer_name L) args) (h args) ;;; before_chain Op later args
      | None => before_chain Op later args
      end
  end.

(** The design's words for step 6, value-returning: each layer's resolved
    after hook, in the order given, each handed the result as the hook
    invoked before it left it. *)
Fixpoint after_chain_result (Op : LayerOp) (order : list (Layer A V W Exn)) (args : A) (result : V)
  : Prog A V W Exn V :=
  match order with
  | [] => ret result
  | L :: later =>
      match resolved_after_result Op L with
      | Some h =>
          left_by_hook <- invoke (CallAfter (layer_name L) (Some result) args) (h result args) ;;;
          after_chain_result Op later args left_by_hook
      | None => after_chain_result Op later args result
      end
  end.

(** Step 6, void: the hooks get the arguments only. *)
Fixpoint after_chain_args (Op : LayerOp) (order : list (Layer A V W Exn)) (args : A)
  : Prog A V W Exn unit :=
  match order with
  | [] => ret tt
  | L :: later =>
      match resolved_after_args Op L with
      | Some h => invoke (CallAfter (layer_name L) None args) (h args) ;;; after_chain_args Op later args
      | None => after_chain_args Op later args
      end
  end.

(** A recorded call without the values it carried. *)
Inductive Tag : Type :=
| TagBefore (layer : string)
| TagCore
| TagAfter (layer : string).

Definition tag_of (c : Call A V) : Tag :=
  match c with
  | CallBefore layer _ => TagBefore layer
  | CallCore _ => TagCore
  | CallAfter layer _ _ => TagAfter layer
  end.

Definition names (Layers : list (Layer A V W Exn)) : list string :=
  map layer_name Layers.

(** The wrapped function as [Exec] calls it. *)
Definition core_throws (func : Func A V W Exn) (args : A) (w : W) (e : Exn) (w' : W) : Prop :=
  match func with
  | VoidFunc f => f args w = (Thrown e, w')
  | ValueFunc f => f args w = (Thrown e, w')
  end.

(** The calls a layer's probes lead to are well-formed: where a probe
    answers true, [Impl<Op>] has the member and it takes the arguments. *)
Definition calls_fit (Op : LayerOp) (L : Layer A V W Exn) : Prop :=
  (has_specific_before_impl L Op || has_generic_before_impl L = true ->
   is_Some (resolved_before Op L)) /\
  match ReturnType Op with
  | NonVoid =>
      has_specific_after_impl L Op || has_generic_after_impl L NonVoid = true ->
      is_Some (resolved_after_result Op L)
  | Void =>
      has_specific_after_impl L Op || has_generic_after_impl L Void = true ->
      is_Some (resolved_after_args Op L)
  end.

End Resolution.

End Resolution.

Arguments Resolution.resolved_before {A V W Exn} Op L.
Arguments Resolution.resolved_after_result {A V W Exn} Op L.
Arguments Resolution.resolved_after_args {A V W Exn} Op L.
Arguments Resolution.has_resolved_before {A V W Exn} Op L.
Arguments Resolution.has_resolved_after {A V W Exn} Op L.
Arguments Resolution.before_chain {A V W Exn} Op order args.
Arguments Resolution.after_chain_result {A V W Exn} Op order args result.
Arguments Resolution.after_chain_args {A V W Exn} Op order args.
Arguments Resolution.tag_of {A V} c.
Arguments Resolution.names {A V W Exn} Layers.
Arguments Resolution.core_throws {A V W Exn} func args w e w'.
Arguments Resolution.calls_fit {A V W Exn} Op L.

(** ** The utilities over a [LayerPack] (strata.h 205-222, 236-249, 289-307) *)

Module LayerPackHelper.

Section PackUtilities.

Variable Name : Type.

Variable specialisation : util.Ty Name -> option bool.

(** [detail::LayerPackHelper<T>] is declared for every [T] and defined for
    [LayerPack<Layers...>] only; [Apply<F>] and [ApplyValue<F>] hand the
    layers of the pack to [F]. *)
Definition ApplyValue {X : Type} (F : list (util.Ty Name) -> X) (LayerPackType : util.Ty Name)
  : build X :=
  match LayerPackType with
  | util.LayerPack Layers => Built (F Layers)
  | util.UserType _ => BuildError
  end.

(** [util::CountEnabledLayers<LayerPackType>] (line 218) *)
Definition CountEnabledLayers (LayerPackType : util.Ty Name) : build nat :=
  ApplyValue (util.CountEnabledLayers Name specialisation) LayerPackType.

(** [util::AnyLayersEnabled<LayerPackType>] (line 222) *)
Definition AnyLayersEnabled (LayerPackType : util.Ty Name) : build bool :=
  ApplyValue (util.AnyLayersEnabled Name specialisation) LayerPackType.

(** [util::EnabledLayerInfo<LayerPackType>::enabled] (line 209) *)
Definition EnabledLayerInfo (LayerPackType : util.Ty Name) : build (list bool) :=
  ApplyValue (util.EnabledLayerInfo Name specialisation) LayerPackType.

(** The layers at the positions where the vector says [true]. *)
Definition select (enabled : list bool) (Layers : list (util.Ty Name)) : list (util.Ty Name) :=
  map snd (List.filter fst (combine enabled Layers)).

End PackUtilities.

End LayerPackHelper.

Arguments LayerPackHelper.ApplyValue {Name X} F LayerPackType.
Arguments LayerPackHelper.CountEnabledLayers {Name} specialisation LayerPackType.
Arguments LayerPackHelper.AnyLayersEnabled {Name} specialisation LayerPackType.
Arguments LayerPackHelper.EnabledLayerInfo {Name} specialisation LayerPackType.
Arguments LayerPackHelper.select {Name} enabled Layers.

(** ** One layer around a pipeline, and the whole order of calls *)

Module Nesting.

Import Strata Resolution.

Section Nesting.

Variables A V W Exn : Type.

(** A layer's own before hook, if it resolves to one. *)
Definition own_before (Op : LayerOp) (L : Layer A V W Exn) (args : A) : Prog A V W Exn unit :=
  match resolved_before Op L with
  | Some h => invoke (CallBefore (layer_name L) args) (h args)
  | None => ret tt
  end.

(** A layer's own after hook, applied to what came back from inside. *)
Definition own_after (Op : LayerOp) (L : Layer A V W Exn) (args : A) (inside : Returned V)
  : Prog A V W Exn (Returned V) :=
  match inside with
  | ReturnedValue result =>
      match resolved_after_result Op L with
      | Some h =>
          left_by_hook <- invoke (CallAfter (layer_name L) (Some result) args) (h result args) ;;;
          ret (ReturnedValue left_by_hook)
      | None => ret (ReturnedValue result)
      end
  | ReturnedVoid =>
      match resolved_after_args Op L with
      | Some h => invoke (CallAfter (layer_name L) None args) (h args) ;;; ret ReturnedVoid
      | None => ret ReturnedVoid
      end
  end.

(** The layer entered first and left last around [inner]. *)
Definition around (Op : LayerOp) (L : Layer A V W Exn) (args : A)
    (inner : Prog A V W Exn (Returned V)) : Prog A V W Exn (Returned V) :=
  own_before Op L args ;;;
  inside <- inner ;;;
  own_after Op L args inside.

(** The wrapped function called with nothing around it. *)
Definition direct_call (func : Func A V W Exn) (args : A) : Prog A V W Exn (Returned V) :=
  match func with
  | VoidFunc f => invoke (CallCore args) (f args) ;;; ret ReturnedVoid
  | ValueFunc f => r <- invoke (CallCore args) (f args) ;;; ret (ReturnedValue r)
  end.

(** A layer that resolves to no hook for the operation. *)
Definition hookless (Op : LayerOp) (L : Layer A V W Exn) : Prop :=
  resolved_before Op L = None /\
  resolved_after_result Op L = None /\
  resolved_after_args Op L = None.

(** The calls of a run in which nothing faults, without their values. *)
Definition nominal_tags (Op : LayerOp) (Layers : list (Layer A V W Exn)) : list Tag :=
  map TagBefore (names (List.filter (has_resolved_before Op) Layers)) ++
  [TagCore] ++
  map TagAfter (rev (names (List.filter (has_resolved_after Op) Layers))).

(** What the layers of a list do around the wrapped function, said
    without [Exec]: their resolved before hooks in order, the function,
    their resolved after hooks in reverse order. *)
Definition run_through (Op : LayerOp) (Layers : list (Layer A V W Exn)) (func : Func A V W Exn)
    (args : A) : Prog A V W Exn (Returned V) :=
  match func with
  | VoidFunc f =>
      before_chain Op Layers args ;;;
      invoke (CallCore args) (f args) ;;;
      after_chain_args Op (rev Layers) args ;;;
      ret ReturnedVoid
  | ValueFunc f =>
      before_chain Op Layers args ;;;
      result <- invoke (CallCore args) (f args) ;;;
      final <- after_chain_result Op (rev Layers) args result ;;;
      ret (ReturnedValue final)
  end.

(** The ways a call does not return. *)
Inductive Fault : Type :=
| Throws (e : Exn)
| Terminates.

Definition raise {X : Type} (f : Fault) : outcome Exn X :=
  match f with
  | Throws e => Thrown e
  | Terminates => Terminated
  end.

Definition core_faults (func : Func A V W Exn) (args : A) (w : W) (f : Fault) (w' : W) : Prop :=
  match func with
  | VoidFunc fn => fn args w = (raise f, w')
  | ValueFunc fn => fn args w = (raise f, w')
  end.

(** A run from [st] that ends in [st'] with the fault [f] stopped at the
    call that faulted: every call before it returned, it is the last call
    made, and the world is as it left it.  That call is the resolved before
    hook of a layer, the wrapped function, or the resolved after hook of a
    layer. *)
Definition stopped_at (Op : LayerOp) (Layers : list (Layer A V W Exn)) (func : Func A V W Exn)
    (args : A) (st : PState A V W) (f : Fault) (st' : PState A V W) : Prop :=
  (exists pre L post h st1,
     Layers = pre ++ L :: post /\
     resolved_before Op L = Some h /\
     before_chain Op pre args st = (Normal tt, st1) /\
     h args (world st1) = (raise f, world st') /\
     calls st' = calls st1 ++ [CallBefore (layer_name L) args]) \/
  (exists st1,
     before_chain Op Layers args st = (Normal tt, st1) /\
     core_faults func args (world st1) f (world st') /\
     calls st' = calls st1 ++ [CallCore args]) \/
  (exists pre L post st1,
     Layers = pre ++ L :: post /\
     before_chain Op Layers args st = (Normal tt, st1) /\
     match func with
     | ValueFunc fn =>
         exists result w2 handed st3 h,
           fn args (world st1) = (Normal result, w2) /\
           after_chain_result Op (rev post) args result
             {| world := w2; calls := calls st1 ++ [CallCore args] |} = (Normal handed, st3) /\
           resolved_after_result Op L = Some h /\
           h handed args (world st3) = (raise f, world st') /\
           calls st' = calls st3 ++ [CallAfter (layer_name L) (Some handed) args]
     | VoidFunc fn =>
         exists w2 st3 h,
           fn args (world st1) = (Normal tt, w2) /\
           after_chain_args Op (rev post) args
             {| world := w2; calls := calls st1 ++ [CallCore args] |} = (Normal tt, st3) /\
           resolved_after_args Op L = Some h /\
           h args (world st3) = (raise f, world st') /\
           calls st' = calls st3 ++ [CallAfter (layer_name L) None args]
     end).

End Nesting.

End Nesting.

Arguments Nesting.own_before {A V W Exn} Op L args.
Arguments Nesting.own_after {A V W Exn} Op L args inside.
Arguments Nesting.around {A V W Exn} Op L args inner.
Arguments Nesting.direct_call {A V W Exn} func args.
Arguments Nesting.hookless {A V W Exn} Op L.
Arguments Nesting.nominal_tags {A V W Exn} Op Layers.
Arguments Nesting.run_through {A V W Exn} Op Layers func args.
Arguments Nesting.Throws {Exn} e.
Arguments Nesting.Terminates {Exn}.
Arguments Nesting.raise {Exn X} f.
Arguments Nesting.core_faults {A V W Exn} func args w f w'.
Arguments Nesting.stopped_at {A V W Exn} Op Layers func args st f st'.

(** ** Walking the registry, and histories of registry operations *)

Module RegistryTraversal.

Import LayerStateRegistry.

(** [iterateStates<T>(func)] (lines 437-449): the calls [func(key, *state)]
    it makes, as the pairs handed to [func].  The order in which an
    [unordered_map] is walked is not fixed by the code; the order of this
    list stands for one of them and nothing is stated about it. *)
Definition iterateStates (T : type_index) (r : Registry) : list (string * nat) :=
  match states_ r !! T with
  | Some typeMap => map_to_list typeMap
  | None => []
  end.

(** The operations that change the registry. *)
Inductive Operation : Type :=
| DoGetOrCreate (T : type_index) (key : string)
| DoRemove (T : type_index) (key : string)
| DoClear.

Definition apply_operation (r : Registry) (op : Operation) : Registry :=
  match op with
  | DoGetOrCreate T key => snd (getOrCreateState T key r)
  | DoRemove T key => removeState T key r
  | DoClear => clear r
  end.

(** The registry after a history of operations since process start. *)
Definition after_history (history : list Operation) : Registry :=
  fold_left apply_operation history instance.

End RegistryTraversal.

(** ** More sample programs *)

Module MoreSamples.

Import Strata Samples.

(** [struct Layer1 {};] of the utility tests: a layer type with no [Impl]
    at all. *)
Definition empty_struct (name : string) : SampleLayer :=
  {| layer_name := name; Impl := fun _ => None |}.

Definition Layer1 : SampleLayer := empty_struct "Layer1".

Definition Layer3 : SampleLayer := empty_struct "Layer3".

(** An after hook that throws whatever it is handed. *)
Definition reject : Z -> Args -> World -> outcome string Z * World :=
  fun _ _ w => (Thrown "rejected", w).

Definition RejectingLayer : SampleLayer :=
  {| layer_name := "RejectingLayer";
     Impl := fun X =>
       if decide (X = OpArg LayerOpAdd)
       then Some {| Before := None;
                    After := Some {| after_named := true;
                                     after_call_result := Some reject;
                                     after_call_args := None |} |}
       else None |}.

(** A layer with a variadic [Before] template in the primary [Impl] and a
    specialisation for [LayerOpAdd] that declares an [After] only. *)
Definition HalfSpecialisedLayer : SampleLayer :=
  {| layer_name := "HalfSpecialisedLayer";
     Impl := fun X =>
       if decide (X = OpArg LayerOpAdd)
       then Some {| Before := None;
                    After := Some {| after_named := true;
                                     after_call_result := Some (fun result _ w => (Normal result, w));
                                     after_call_args := None |} |}
       else Some {| Before := Some {| before_named := false;
                                      before_call := Some (fun _ w => (Normal tt, w)) |};
                    After := None |} |}.

(** An observer that throws, between two that write down what they see. *)
Definition failing_observer : LayerState.Observer Z (list (Z * Z)) string :=
  fun _ seen => (Thrown "observer failed", seen).

Definition guarded_store : LayerState.SState Z (list (Z * Z)) string :=
  {| LayerState.store := {| LayerState.data_ := 0%Z;
                            LayerState.observers_ := [recorder 1; failing_observer; recorder 2] |};
     LayerState.env := [];
     LayerState.notified := [] |}.

(** [s.value = 42; throw ...;] *)
Definition set_then_throw : LayerState.Accessor Z (list (Z * Z)) string unit :=
  fun _ seen => (Thrown "scope failed", (42%Z, seen)).

(** A registry in which one store of [TestState] is registered. *)
Definition one_store : LayerStateRegistry.Registry :=
  snd (LayerStateRegistry.getOrCreateState "TestState" "context1" LayerStateRegistry.instance).

(** [CounterLayer] of the state tests, on two arguments: the primary
    template of [Impl] has plain [Before(int, int)] and [After(int, int)],
    which count and log. *)
Definition count_call : Args -> World -> outcome string unit * World :=
  fun _ w => (Normal tt, {| operationCount := S (operationCount w); Log := Log w |}).

Definition log_sum : Args -> World -> outcome string unit * World :=
  fun '(a, b) w => (Normal tt, {| operationCount := operationCount w; Log := Log w ++ [(a + b)%Z] |}).

Definition CounterLayer : SampleLayer :=
  {| layer_name := "CounterLayer";
     Impl := fun _ =>
       Some {| Before := Some {| before_named := true; before_call := Some count_call |};
               After := Some {| after_named := true;
                                after_call_result := None;
                                after_call_args := Some log_sum |} |} |}.

End MoreSamples.

(** * Properties *)

(** ** The monad *)

Section MonadFacts.

Context {St Exn : Type}.

Lemma bind_ret_l {X Y : Type} (x : X) (k : X -> M St Exn Y) (s : St) :
  bind (ret x) k s = k x s.
Proof. reflexivity. Qed.

Lemma bind_ret_r {X : Type} (m : M St Exn X) (s : St) :
  bind m ret s = m s.
Proof. unfold bind, ret. destruct (m s) as [[x | e |] s']; reflexivity. Qed.

Lemma bind_assoc {X Y Z : Type} (m : M St Exn X) (k : X -> M St Exn Y) (h : Y -> M St Exn Z) (s : St) :
  bind (bind m k) h s = bind m (fun x => bind (k x) h) s.
Proof. unfold bind. destruct (m s) as [[x | e |] s']; reflexivity. Qed.

Lemma bind_ext {X Y : Type} (m m' : M St Exn X) (k k' : X -> M St Exn Y) (s : St) :
  m s = m' s -> (forall x s', k x s' = k' x s') -> bind m k s = bind m' k' s.
Proof.
  intros Hm Hk. unfold bind. rewrite Hm.
  destruct (m' s) as [[x | e |] s']; auto.
Qed.

Lemma bind_Normal {X Y : Type} (m : M St Exn X) (k : X -> M St Exn Y) (s s2 : St) (y : Y) :
  bind m k s = (Normal y, s2) ->
  exists x s1, m s = (Normal x, s1) /\ k x s1 = (Normal y, s2).
Proof.
  unfold bind. destruct (m s) as [[x | e |] s1]; intros H; try discriminate.
  eauto.
Qed.

Lemma bind_Thrown_l {X Y : Type} (m : M St Exn X) (k : X -> M St Exn Y) (s s1 : St) (e : Exn) :
  m s = (Thrown e, s1) -> bind m k s = (Thrown e, s1).
Proof. intros H. unfold bind. rewrite H. reflexivity. Qed.

Lemma bind_Normal_l {X Y : Type} (m : M St Exn X) (k : X -> M St Exn Y) (s s1 : St) (x : X) :
  m s = (Normal x, s1) -> bind m k s = k x s1.
Proof. intros H. unfold bind. rewrite H. reflexivity. Qed.

End MonadFacts.

(** ** The pipeline *)

Import Strata Resolution.

Section PipelineFacts.

Variables A V W Exn : Type.

Implicit Types (L First : Layer A V W Exn) (Layers Rest order : list (Layer A V W Exn)).
Implicit Types (Op : LayerOp) (args : A) (st : PState A V W).

Lemma invoke_inv {X : Type} (c : Call A V) (code : W -> outcome Exn X * W) st (o : outcome Exn X) st' :
  invoke c code st = (o, st') ->
  code (world st) = (o, world st') /\ calls st' = calls st ++ [c].
Proof.
  unfold invoke. destruct (code (world st)) as [o1 w1].
  intros H. inversion H; subst. simpl. split; reflexivity.
Qed.

(** *** What one probe-and-call builds *)

Lemma ApplyBeforeIfExists_resolved Op L args (p : Prog A V W Exn unit) :
  ApplyBeforeIfExists Op L args = Built p ->
  match resolved_before Op L with
  | Some h => p = invoke (CallBefore (layer_name L) args) (h args)
  | None => p = ret tt
  end.
Proof.
  unfold ApplyBeforeIfExists, resolved_before, call_Before.
  destruct (has_specific_before_impl L Op), (has_generic_before_impl L); cbn [orb];
    try (intros [= <-]; reflexivity);
    (destruct (member_Before L (OpArg Op)) as [m |]; cbn; [| discriminate];
     destruct (before_call m); [| discriminate]; intros [= <-]; reflexivity).
Qed.

Lemma own_After_result_resolved Op First args (own : V -> Prog A V W Exn V) :
  (if has_specific_after_impl First Op then call_After_result First Op args
   else if has_generic_after_impl First NonVoid then call_After_result First Op args
   else Built (fun result => ret result)) = Built own ->
  match resolved_after_result Op First with
  | Some h => own = fun result => invoke (CallAfter (layer_name First) (Some result) args) (h result args)
  | None => own = fun result => ret result
  end.
Proof.
  unfold resolved_after_result, call_After_result.
  destruct (has_specific_after_impl First Op), (has_generic_after_impl First NonVoid); cbn [orb];
    try (intros [= <-]; reflexivity);
    (destruct (member_After First (OpArg Op)) as [m |]; cbn; [| discriminate];
     destruct (after_call_result m); [| discriminate]; intros [= <-]; reflexivity).
Qed.

Lemma own_After_args_resolved Op First args (own : Prog A V W Exn unit) :
  (if has_specific_after_impl First Op then call_After_args First Op args
   else if has_generic_after_impl First Void then call_After_args First Op args
   else Built (ret tt)) = Built own ->
  match resolved_after_args Op First with
  | Some h => own = invoke (CallAfter (layer_name First) None args) (h args)
  | None => own = ret tt
  end.
Proof.
  unfold resolved_after_args, call_After_args.
  destruct (has_specific_after_impl First Op); cbn;
    try (intros [= <-]; reflexivity).
  destruct (member_After First (OpArg Op)) as [m |]; cbn; [| discriminate].
  destruct (after_call_args m); [| discriminate]. intros [= <-]; reflexivity.
Qed.

(** *** The folds against the chains *)

Lemma before_chain_app Op order1 order2 args st :
  before_chain Op (order1 ++ order2) args st =
  (before_chain Op order1 args ;;; before_chain Op order2 args) st.
Proof.
  revert st. induction order1 as [| L later IH]; intros st; simpl.
  - reflexivity.
  - destruct (resolved_before Op L) as [h |]; [| apply IH].
    rewrite bind_assoc. apply bind_ext; [reflexivity | intros; apply IH].
Qed.

Lemma after_chain_result_app Op order1 order2 args (result : V) st :
  after_chain_result Op (order1 ++ order2) args result st =
  (r <- after_chain_result Op order1 args result ;;; after_chain_result Op order2 args r) st.
Proof.
  revert result st. induction order1 as [| L later IH]; intros result st; simpl.
  - reflexivity.
  - destruct (resolved_after_result Op L) as [h |]; [| apply IH].
    rewrite bind_assoc. apply bind_ext; [reflexivity | intros; apply IH].
Qed.

Lemma after_chain_args_app Op order1 order2 args st :
  after_chain_args Op (order1 ++ order2) args st =
  (after_chain_args Op order1 args ;;; after_chain_args Op order2 args) st.
Proof.
  revert st. induction order1 as [| L later IH]; intros st; simpl.
  - reflexivity.
  - destruct (resolved_after_args Op L) as [h |]; [| apply IH].
    rewrite bind_assoc. apply bind_ext; [reflexivity | intros; apply IH].
Qed.

Lemma ApplyBeforeFold_chain Op Layers args (befores : Prog A V W Exn unit) :
  ApplyBeforeFold Op Layers args = Built befores ->
  forall st, befores st = before_chain Op Layers args st.
Proof.
  revert befores. induction Layers as [| L Ls IH]; intros befores H st; simpl in *.
  - inversion H; reflexivity.
  - destruct (ApplyBeforeIfExists Op L args) as [first |] eqn:Hfirst; simpl in H; [| discriminate].
    destruct (ApplyBeforeFold Op Ls args) as [others |] eqn:Hothers; simpl in H; [| discriminate].
    inversion H; subst befores; clear H.
    apply ApplyBeforeIfExists_resolved in Hfirst.
    destruct (resolved_before Op L) as [h |]; subst first.
    + apply bind_ext; [reflexivity | intros; apply IH; reflexivity].
    + rewrite bind_ret_l. apply IH; reflexivity.
Qed.

Lemma ApplyAfterIfExists_result_unfold Op First Rest args :
  ApplyAfterIfExists_result Op First Rest args =
  (build! inner <-
     match Rest with
     | [] => Built (fun result => ret result)
     | R :: Rs => ApplyAfterIfExists_result Op R Rs args
     end;
   build! own <-
     (if has_specific_after_impl First Op then call_After_result First Op args
      else if has_generic_after_impl First NonVoid then call_After_result First Op args
      else Built (fun result => ret result));
   Built (fun result => r <- inner result ;;; own r)).
Proof. destruct Rest; reflexivity. Qed.

Lemma ApplyAfterIfExists_void_unfold Op First Rest args :
  ApplyAfterIfExists_void Op First Rest args =
  (build! inner <-
     match Rest with
     | [] => Built (ret tt)
     | R :: Rs => ApplyAfterIfExists_void Op R Rs args
     end;
   build! own <-
     (if has_specific_after_impl First Op then call_After_args First Op args
      else if has_generic_after_impl First Void then call_After_args First Op args
      else Built (ret tt));
   Built (inner ;;; own)).
Proof. destruct Rest; reflexivity. Qed.

Lemma ApplyAfterIfExists_result_chain Op Rest :
  forall First args (afters : V -> Prog A V W Exn V),
  ApplyAfterIfExists_result Op First Rest args = Built afters ->
  forall (result : V) st,
    afters result st = after_chain_result Op (rev (First :: Rest)) args result st.
Proof.
  induction Rest as [| R Rs IH]; intros First args afters H result st;
    rewrite ApplyAfterIfExists_result_unfold in H.
  - simpl in H.
    match type of H with build_bind ?b _ = _ => destruct b as [own |] eqn:Hown end;
      simpl in H; [| discriminate].
    inversion H; subst afters; clear H.
    apply own_After_result_resolved in Hown. simpl.
    destruct (resolved_after_result Op First) as [h |]; subst own.
    + rewrite bind_ret_l. symmetry. apply bind_ret_r.
    + reflexivity.
  - destruct (ApplyAfterIfExists_result Op R Rs args) as [inner |] eqn:Hinner;
      simpl in H; [| discriminate].
    match type of H with build_bind ?b _ = _ => destruct b as [own |] eqn:Hown end;
      simpl in H; [| discriminate].
    inversion H; subst afters; clear H.
    apply own_After_result_resolved in Hown.
    change (rev (First :: R :: Rs)) with (rev (R :: Rs) ++ [First]).
    rewrite after_chain_result_app.
    apply bind_ext; [apply (IH R args inner Hinner) |].
    intros r s'. simpl.
    destruct (resolved_after_result Op First) as [h |]; subst own.
    + symmetry. apply bind_ret_r.
    + reflexivity.
Qed.

Lemma ApplyAfterIfExists_void_chain Op Rest :
  forall First args (afters : Prog A V W Exn unit),
  ApplyAfterIfExists_void Op First Rest args = Built afters ->
  forall st, afters st = after_chain_args Op (rev (First :: Rest)) args st.
Proof.
  induction Rest as [| R Rs IH]; intros First args afters H st;
    rewrite ApplyAfterIfExists_void_unfold in H.
  - simpl in H.
    match type of H with build_bind ?b _ = _ => destruct b as [own |] eqn:Hown end;
      simpl in H; [| discriminate].
    inversion H; subst afters; clear H.
    apply own_After_args_resolved in Hown. simpl.
    destruct (resolved_after_args Op First) as [h |]; subst own.
    + rewrite bind_ret_l. symmetry.
      unfold bind. destruct (invoke _ _ st) as [[[] | e |] s']; reflexivity.
    + reflexivity.
  - destruct (ApplyAfterIfExists_void Op R Rs args) as [inner |] eqn:Hinner;
      simpl in H; [| discriminate].
    match type of H with build_bind ?b _ = _ => destruct b as [own |] eqn:Hown end;
      simpl in H; [| discriminate].
    inversion H; subst afters; clear H.
    apply own_After_args_resolved in Hown.
    change (rev (First :: R :: Rs)) with (rev (R :: Rs) ++ [First]).
    rewrite after_chain_args_app.
    apply bind_ext; [apply (IH R args inner Hinner) |].
    intros r s'. simpl.
    destruct (resolved_after_args Op First) as [h |]; subst own.
    + unfold bind. destruct (invoke _ _ s') as [[[] | e |] s'']; reflexivity.
    + reflexivity.
Qed.

(** *** [Exec] against the chains *)

Lemma Exec_value_chain Layers Op (f : A -> W -> outcome Exn V * W) args
    (p : Prog A V W Exn (Returned V)) :
  Exec Layers Op (ValueFunc f) args = Built p ->
  ReturnType Op = NonVoid /\
  forall st,
    p st =
    (before_chain Op Layers args ;;;
     result <- invoke (CallCore args) (f args) ;;;
     final <- after_chain_result Op (rev Layers) args result ;;;
     ret (ReturnedValue final)) st.
Proof.
  unfold Exec, validates_function.
  destruct (ReturnType Op); cbn; [discriminate |].
  destruct (ApplyBeforeFold Op Layers args) as [befores |] eqn:Hb; cbn; [| discriminate].
  destruct (ApplyAfter_line97 Op Layers args) as [afters |] eqn:Ha; cbn; [| discriminate].
  intros [= <-]. split; [reflexivity |]. intros st.
  pose proof (ApplyBeforeFold_chain _ _ _ _ Hb) as Hbefore.
  destruct Layers as [| First Rest].
  - cbn in Ha. injection Ha as <-. cbn.
    unfold Exec_value_body, Exec_void_body, body, then_, bind, ret.
    destruct (invoke (CallCore args) (f args) st) as [[r | e |] s1]; reflexivity.
  - cbn [ApplyAfter_line97] in Ha.
    pose proof (ApplyAfterIfExists_result_chain _ _ _ _ _ Ha) as Hafter.
    unfold Exec_value_body, Exec_void_body, body, then_, bind, ret. rewrite Hbefore.
    destruct (before_chain Op (First :: Rest) args st) as [[[] | e |] s1]; try reflexivity.
    destruct (invoke (CallCore args) (f args) s1) as [[r | e |] s2]; try reflexivity.
    rewrite Hafter.
    destruct (after_chain_result Op (rev (First :: Rest)) args r s2) as [[r' | e |] s3];
      reflexivity.
Qed.

Lemma Exec_void_chain Layers Op (f : A -> W -> outcome Exn unit * W) args
    (p : Prog A V W Exn (Returned V)) :
  Exec Layers Op (VoidFunc f) args = Built p ->
  ReturnType Op = Void /\ Layers <> [] /\
  forall st,
    p st =
    (before_chain Op Layers args ;;;
     invoke (CallCore args) (f args) ;;;
     after_chain_args Op (rev Layers) args ;;;
     ret ReturnedVoid) st.
Proof.
  unfold Exec, validates_function.
  destruct (ReturnType Op); cbn; [| discriminate].
  destruct (ApplyBeforeFold Op Layers args) as [befores |] eqn:Hb; cbn; [| discriminate].
  destruct (ApplyAfter_line92 Op Layers args) as [afters |] eqn:Ha; cbn; [| discriminate].
  intros [= <-]. split; [reflexivity |].
  pose proof (ApplyBeforeFold_chain _ _ _ _ Hb) as Hbefore.
  destruct Layers as [| First Rest]; [discriminate |].
  split; [discriminate |]. intros st.
  cbn [ApplyAfter_line92] in Ha.
  pose proof (ApplyAfterIfExists_void_chain _ _ _ _ _ Ha) as Hafter.
  unfold Exec_value_body, Exec_void_body, body, then_, bind, ret. rewrite Hbefore.
  destruct (before_chain Op (First :: Rest) args st) as [[[] | e |] s1]; try reflexivity.
  destruct (invoke (CallCore args) (f args) s1) as [[[] | e |] s2]; try reflexivity.
  rewrite Hafter.
  destruct (after_chain_args Op (rev (First :: Rest)) args s2) as [[[] | e |] s3];
    reflexivity.
Qed.

(** *** The calls a chain records *)

Lemma before_chain_Normal Op order args st (x : unit) st' :
  before_chain Op order args st = (Normal x, st') ->
  calls st' =
  calls st ++ map (fun L => CallBefore (layer_name L) args)
                  (List.filter (has_resolved_before Op) order).
Proof.
  revert st. induction order as [| L later IH]; intros st H; simpl in *.
  - injection H as _ <-. rewrite app_nil_r. reflexivity.
  - unfold has_resolved_before at 1.
    destruct (resolved_before Op L) as [h |].
    + apply bind_Normal in H as (u & s1 & H1 & H2).
      apply invoke_inv in H1 as [_ H1]. apply IH in H2.
      rewrite H2, H1, <- app_assoc. reflexivity.
    + rewrite bool_decide_eq_false_2 by (intros [? ?]; discriminate). auto.
Qed.

Lemma after_chain_result_Normal Op order args (result final : V) st st' :
  after_chain_result Op order args result st = (Normal final, st') ->
  exists made,
    calls st' = calls st ++ made /\
    map tag_of made =
    map TagAfter (names (List.filter (fun L => bool_decide (is_Some (resolved_after_result Op L))) order)).
Proof.
  revert result st. induction order as [| L later IH]; intros result st H; simpl in *.
  - injection H as _ <-. exists []. rewrite app_nil_r. split; reflexivity.
  - destruct (resolved_after_result Op L) as [h |].
    + apply bind_Normal in H as (r & s1 & H1 & H2).
      apply invoke_inv in H1 as [_ H1]. apply IH in H2 as (made & H2 & H3).
      exists (CallAfter (layer_name L) (Some result) args :: made). split.
      * rewrite H2, H1, <- app_assoc. reflexivity.
      * rewrite bool_decide_eq_true_2 by eauto. simpl. rewrite H3. reflexivity.
    + rewrite bool_decide_eq_false_2 by (intros [? ?]; discriminate). eauto.
Qed.

Lemma after_chain_args_calls Op order args st (o : outcome Exn unit) st' :
  after_chain_args Op order args st = (o, st') ->
  exists ran,
    calls st' = calls st ++ map (fun L => CallAfter (layer_name L) None args) ran /\
    (forall x, o = Normal x ->
       ran = List.filter (fun L => bool_decide (is_Some (resolved_after_args Op L))) order).
Proof.
  revert st. induction order as [| L later IH]; intros st H; simpl in *.
  - injection H as <- <-. exists []. rewrite app_nil_r. split; [reflexivity | auto].
  - destruct (resolved_after_args Op L) as [h |].
    + rewrite bool_decide_eq_true_2 by eauto.
      unfold bind in H.
      destruct (invoke (CallAfter (layer_name L) None args) (h args) st) as [[[] | e |] s1] eqn:H1;
        apply invoke_inv in H1 as [_ H1].
      * apply IH in H as (ran & H2 & H3). exists (L :: ran). split.
        -- rewrite H2, H1, <- app_assoc. reflexivity.
        -- intros x Hx. rewrite (H3 x Hx). reflexivity.
      * injection H as <- <-. exists [L]. split; [exact H1 | discriminate].
      * injection H as <- <-. exists [L]. split; [exact H1 | discriminate].
    + rewrite bool_decide_eq_false_2 by (intros [? ?]; discriminate). eauto.
Qed.

Lemma invoke_run {X : Type} (c : Call A V) (code : W -> outcome Exn X * W) st
    (o : outcome Exn X) (w' : W) :
  code (world st) = (o, w') ->
  invoke c code st = (o, {| world := w'; calls := calls st ++ [c] |}).
Proof. intros H. unfold invoke. rewrite H. reflexivity. Qed.

Lemma before_chain_calls Op order args st (o : outcome Exn unit) st' :
  before_chain Op order args st = (o, st') ->
  exists ran, calls st' = calls st ++ map (fun L => CallBefore (layer_name L) args) ran.
Proof.
  revert st. induction order as [| L later IH]; intros st H; simpl in *.
  - injection H as _ <-. exists []. rewrite app_nil_r. reflexivity.
  - destruct (resolved_before Op L) as [h |]; [| eauto].
    unfold bind in H.
    destruct (invoke (CallBefore (layer_name L) args) (h args) st) as [[[] | e |] s1] eqn:H1;
      apply invoke_inv in H1 as [_ H1].
    + apply IH in H as (ran & H2). exists (L :: ran).
      rewrite H2, H1, <- app_assoc. reflexivity.
    + injection H as _ <-. exists [L]. exact H1.
    + injection H as _ <-. exists [L]. exact H1.
Qed.

Lemma has_resolved_after_Void Op order :
  ReturnType Op = Void ->
  List.filter (has_resolved_after Op) order =
  List.filter (fun L : Layer A V W Exn => bool_decide (is_Some (resolved_after_args Op L))) order.
Proof.
  intros H. apply List.filter_ext. intros L. unfold has_resolved_after. rewrite H. reflexivity.
Qed.

Lemma has_resolved_after_NonVoid Op order :
  ReturnType Op = NonVoid ->
  List.filter (has_resolved_after Op) order =
  List.filter (fun L : Layer A V W Exn => bool_decide (is_Some (resolved_after_result Op L))) order.
Proof.
  intros H. apply List.filter_ext. intros L. unfold has_resolved_after. rewrite H. reflexivity.
Qed.


(** C2.  When the resolved before hook of a layer throws, the run ends
    there with that exception: the calls made are the before hooks up to
    and including that layer's, so no later before hook, not the wrapped
    function and no after hook.  When the wrapped function throws, the run
    ends there with that exception: the calls made are the before hooks and
    the wrapped function, so no after hook. *)
Theorem Exec_exception_paths Layers Op (func : Func A V W Exn) args
    (p : Prog A V W Exn (Returned V)) st :
  Exec Layers Op func args = Built p ->
  (forall pre Li post (h : A -> W -> outcome Exn unit * W) st1 (e : Exn) (w2 : W) (u : unit),
     Layers = pre ++ Li :: post ->
     resolved_before Op Li = Some h ->
     before_chain Op pre args st = (Normal u, st1) ->
     h args (world st1) = (Thrown e, w2) ->
     p st =
     (Thrown e,
      {| world := w2;
         calls := calls st ++
                  map (fun L => CallBefore (layer_name L) args)
                      (List.filter (has_resolved_before Op) pre) ++
                  [CallBefore (layer_name Li) args] |}))
  /\
  (forall st1 (e : Exn) (w2 : W) (u : unit),
     before_chain Op Layers args st = (Normal u, st1) ->
     core_throws func args (world st1) e w2 ->
     p st =
     (Thrown e,
      {| world := w2;
         calls := calls st ++
                  map (fun L => CallBefore (layer_name L) args)
                      (List.filter (has_resolved_before Op) Layers) ++
                  [CallCore args] |})).
Proof.
  intros HExec.
  assert (Hp : exists rest : Prog A V W Exn (Returned V),
             (forall st, p st = (before_chain Op Layers args ;;; rest) st) /\
             (forall s1 e w2, core_throws func args (world s1) e w2 ->
                rest s1 = (Thrown e, {| world := w2; calls := calls s1 ++ [CallCore args] |}))).
  { destruct func as [f | f].
    - apply Exec_void_chain in HExec as (_ & _ & Hp). eexists. split; [exact Hp |].
      intros s1 e w2 Hcore. apply bind_Thrown_l, invoke_run, Hcore.
    - apply Exec_value_chain in HExec as (_ & Hp). eexists. split; [exact Hp |].
      intros s1 e w2 Hcore. apply bind_Thrown_l, invoke_run, Hcore. }
  destruct Hp as (rest & Hp & Hcore). split.
  - intros pre Li post h st1 e w2 u -> Hres Hpre Hthrow.
    rewrite Hp. apply bind_Thrown_l. rewrite before_chain_app.
    rewrite (bind_Normal_l _ _ _ _ _ Hpre). simpl. rewrite Hres.
    apply bind_Thrown_l.
    rewrite (invoke_run _ _ _ _ _ Hthrow).
    rewrite (before_chain_Normal _ _ _ _ _ _ Hpre), <- app_assoc. reflexivity.
  - intros st1 e w2 u Hb Hthrow.
    rewrite Hp, (bind_Normal_l _ _ _ _ _ Hb), (Hcore _ _ _ Hthrow).
    rewrite (before_chain_Normal _ _ _ _ _ _ Hb), <- app_assoc. reflexivity.
Qed.

(** *** The result on its way through the after hooks *)

(** One step of the chain, spelled out: the hook is handed the result as
    it stands, and what it leaves is what the next hook is handed. *)
Lemma after_chain_result_step Op L order args (result left_by_hook : V) st (w1 : W)
    (h : V -> A -> W -> outcome Exn V * W) :
  resolved_after_result Op L = Some h ->
  h result args (world st) = (Normal left_by_hook, w1) ->
  after_chain_result Op (L :: order) args result st =
  after_chain_result Op order args left_by_hook
    {| world := w1; calls := calls st ++ [CallAfter (layer_name L) (Some result) args] |}.
Proof.
  intros Hres Hh. simpl. rewrite Hres.
  apply bind_Normal_l, invoke_run, Hh.
Qed.

Lemma Exec_void_calls Layers Op (f : A -> W -> outcome Exn unit * W) args
    (p : Prog A V W Exn (Returned V)) st (o : outcome Exn (Returned V)) st' :
  Exec Layers Op (VoidFunc f) args = Built p ->
  p st = (o, st') ->
  exists ran_before core ran_after,
    calls st' =
    calls st ++ map (fun L => CallBefore (layer_name L) args) ran_before ++ core ++
    map (fun L => CallAfter (layer_name L) None args) ran_after /\
    (core = [] \/ core = [CallCore args]).
Proof.
  intros HExec Hrun. apply Exec_void_chain in HExec as (_ & _ & Hp).
  rewrite Hp in Hrun. unfold bind in Hrun.
  destruct (before_chain Op Layers args st) as [ob s1] eqn:Hb.
  apply before_chain_calls in Hb as (ran1 & Hb).
  destruct ob as [[] | e |];
    [| injection Hrun as _ <-; exists ran1, [], []; rewrite Hb, !app_nil_r; auto ..].
  destruct (invoke (CallCore args) (f args) s1) as [oc s2] eqn:Hc.
  apply invoke_inv in Hc as [_ Hc].
  destruct oc as [[] | e |];
    [| injection Hrun as _ <-; exists ran1, [CallCore args], [];
       rewrite Hc, Hb, <- !app_assoc; auto ..].
  destruct (after_chain_args Op (rev Layers) args s2) as [oa s3] eqn:Ha.
  apply after_chain_args_calls in Ha as (ran2 & Ha & _).
  exists ran1, [CallCore args], ran2. split; [| auto].
  destruct oa as [[] | e |]; injection Hrun as _ <-;
    rewrite Ha, Hc, Hb, <- !app_assoc; reflexivity.
Qed.

(** C5.  For a value-returning operation [Exec] runs the before hooks, the
    wrapped function, and then the after hooks in reverse list order on one
    result: each hook is handed the result as the hook invoked before it
    left it, and what the last one leaves is what [Exec] returns.  For a
    void operation [Exec] runs the before hooks, the wrapped function, and
    then the after hooks in reverse list order, each called with the
    arguments alone. *)
Theorem Exec_after_hooks_share_result Layers Op (func : Func A V W Exn) args
    (p : Prog A V W Exn (Returned V)) :
  Exec Layers Op func args = Built p ->
  match func with
  | ValueFunc f =>
      forall st,
        p st =
        (before_chain Op Layers args ;;;
         result <- invoke (CallCore args) (f args) ;;;
         final <- after_chain_result Op (rev Layers) args result ;;;
         ret (ReturnedValue final)) st
  | VoidFunc f =>
      forall st,
        p st =
        (before_chain Op Layers args ;;;
         invoke (CallCore args) (f args) ;;;
         after_chain_args Op (rev Layers) args ;;;
         ret ReturnedVoid) st
  end.
Proof.
  intros HExec. destruct func as [f | f].
  - apply Exec_void_chain in HExec as (_ & _ & Hp). exact Hp.
  - apply Exec_value_chain in HExec as (_ & Hp). exact Hp.
Qed.

(** *** No layers *)

Lemma Exec_value_without_layers Op (f : A -> W -> outcome Exn V * W) args :
  ReturnType Op = NonVoid ->
  exists p : Prog A V W Exn (Returned V),
    Exec [] Op (ValueFunc f) args = Built p /\
    forall st, p st = (r <- invoke (CallCore args) (f args) ;;; ret (ReturnedValue r)) st.
Proof.
  intros HRT. unfold Exec, validates_function. rewrite HRT. cbn.
  eexists. split; [reflexivity |]. intros st.
  unfold Exec_value_body, Exec_void_body, body, then_, bind, ret.
  destruct (invoke (CallCore args) (f args) st) as [[r | e |] s1]; reflexivity.
Qed.

Lemma Exec_void_without_layers Op (f : A -> W -> outcome Exn unit * W) args :
  Exec (V := V) [] Op (VoidFunc f) args = BuildError.
Proof.
  unfold Exec, validates_function. destruct (ReturnType Op); reflexivity.
Qed.

(** The body for a void operation and no layers, whatever stood in for the
    call of line 92: the wrapped function has run twice by then. *)
Lemma Exec_void_body_without_layers (f : A -> W -> outcome Exn unit * W) args
    (afters : Prog A V W Exn unit) st (w1 w2 : W) :
  f args (world st) = (Normal tt, w1) ->
  f args w1 = (Normal tt, w2) ->
  Exec_void_body [] (ret tt) (invoke (CallCore args) (f args)) afters st =
  (afters ;;; ret ReturnedVoid)
    {| world := w2; calls := calls st ++ [CallCore args; CallCore args] |}.
Proof.
  intros H1 H2. unfold Exec_void_body, body, then_, bind, ret, invoke.
  rewrite H1. cbn. rewrite H2. cbn. rewrite <- app_assoc. cbn.
  destruct (afters _) as [[[] | e |] s3]; reflexivity.
Qed.

(** *** When [Exec] builds *)

Lemma ApplyBeforeIfExists_builds Op L args :
  calls_fit Op L -> exists p, ApplyBeforeIfExists Op L args = Built p.
Proof.
  intros [Hfit _]. unfold ApplyBeforeIfExists, call_Before.
  unfold resolved_before in Hfit.
  destruct (has_specific_before_impl L Op), (has_generic_before_impl L); cbn [orb] in *;
    try (eexists; reflexivity);
    (destruct (Hfit eq_refl) as [h Hh];
     destruct (member_Before L (OpArg Op)) as [m |]; cbn in Hh; [| discriminate];
     rewrite Hh; eexists; reflexivity).
Qed.

Lemma ApplyBeforeFold_builds Op Layers args :
  Forall (calls_fit Op) Layers -> exists p, ApplyBeforeFold Op Layers args = Built p.
Proof.
  induction 1 as [| L Ls HL _ [others IH]]; simpl.
  - eexists; reflexivity.
  - destruct (ApplyBeforeIfExists_builds Op L args HL) as [first Hfirst].
    rewrite Hfirst, IH. eexists; reflexivity.
Qed.

Lemma ApplyAfterIfExists_result_builds Op Rest :
  ReturnType Op = NonVoid ->
  forall First args,
  Forall (calls_fit Op) (First :: Rest) ->
  exists p, ApplyAfterIfExists_result Op First Rest args = Built p.
Proof.
  intros HRT. induction Rest as [| R Rs IH]; intros First args Hall;
    rewrite ApplyAfterIfExists_result_unfold;
    apply Forall_cons in Hall as [[_ Hfit] Hrest]; rewrite HRT in Hfit;
    unfold resolved_after_result in Hfit; unfold call_After_result.
  - cbn [build_bind].
    destruct (has_specific_after_impl First Op), (has_generic_after_impl First NonVoid);
      cbn [orb] in *; try (eexists; reflexivity);
      (destruct (Hfit eq_refl) as [h Hh];
       destruct (member_After First (OpArg Op)) as [m |]; cbn in Hh; [| discriminate];
       rewrite Hh; eexists; reflexivity).
  - destruct (IH R args Hrest) as [inner Hinner]. rewrite Hinner. cbn [build_bind].
    destruct (has_specific_after_impl First Op), (has_generic_after_impl First NonVoid);
      cbn [orb] in *; try (eexists; reflexivity);
      (destruct (Hfit eq_refl) as [h Hh];
       destruct (member_After First (OpArg Op)) as [m |]; cbn in Hh; [| discriminate];
       rewrite Hh; eexists; reflexivity).
Qed.

Lemma ApplyAfterIfExists_void_builds Op Rest :
  ReturnType Op = Void ->
  forall First args,
  Forall (calls_fit Op) (First :: Rest) ->
  exists p, ApplyAfterIfExists_void Op First Rest args = Built p.
Proof.
  intros HRT. induction Rest as [| R Rs IH]; intros First args Hall;
    rewrite ApplyAfterIfExists_void_unfold;
    apply Forall_cons in Hall as [[_ Hfit] Hrest]; rewrite HRT in Hfit;
    unfold resolved_after_args in Hfit; unfold call_After_args.
  - cbn [build_bind].
    destruct (has_specific_after_impl First Op); cbn in *; try (eexists; reflexivity).
    destruct (Hfit eq_refl) as [h Hh].
    destruct (member_After First (OpArg Op)) as [m |]; cbn in Hh; [| discriminate].
    rewrite Hh. eexists; reflexivity.
  - destruct (IH R args Hrest) as [inner Hinner]. rewrite Hinner. cbn [build_bind].
    destruct (has_specific_after_impl First Op); cbn in *; try (eexists; reflexivity).
    destruct (Hfit eq_refl) as [h Hh].
    destruct (member_After First (OpArg Op)) as [m |]; cbn in Hh; [| discriminate].
    rewrite Hh. eexists; reflexivity.
Qed.

(** [Exec] builds when the function fits the operation, the calls the
    probes lead to are well-formed, and the layer list is not empty or the
    operation returns a value. *)
Lemma Exec_builds Layers Op (func : Func A V W Exn) args :
  validates_function Op func = true ->
  Forall (calls_fit Op) Layers ->
  Layers <> [] \/ ReturnType Op = NonVoid ->
  exists p, Exec Layers Op func args = Built p.
Proof.
  intros Hvalid Hfit Hshape. unfold Exec. rewrite Hvalid. cbn [static_assert build_bind].
  destruct (ApplyBeforeFold_builds Op Layers args Hfit) as [befores ->]. cbn [build_bind].
  unfold validates_function in Hvalid.
  destruct (ReturnType Op) eqn:HRT, func as [f | f]; try discriminate.
  - destruct Layers as [| First Rest]; [destruct Hshape; congruence |].
    cbn [ApplyAfter_line92].
    destruct (ApplyAfterIfExists_void_builds Op Rest HRT First args Hfit) as [afters ->].
    eexists; reflexivity.
  - destruct Layers as [| First Rest].
    + cbn. eexists; reflexivity.
    + cbn [ApplyAfter_line97].
      destruct (ApplyAfterIfExists_result_builds Op Rest HRT First args Hfit) as [afters ->].
      eexists; reflexivity.
Qed.

(** *** Generic after hooks and void operations *)

Lemma resolved_after_args_specific_only Op L :
  has_specific_after_impl L Op = false -> resolved_after_args Op L = None.
Proof. intros H. unfold resolved_after_args. rewrite H. reflexivity. Qed.

End PipelineFacts.

(** ** [LayerTraits] and [LayerFilter] *)

Section FilterFacts.

Context {Name : Type}.

Variable specialisation : util.Ty Name -> option bool.

Lemma EnabledLayers_filter (AllLayers : list (util.Ty Name)) :
  util.EnabledLayers specialisation AllLayers =
  util.Strata (List.filter (util.IsLayerEnabled specialisation) AllLayers).
Proof.
  induction AllLayers as [| FirstLayer RestLayers IH]; simpl.
  - reflexivity.
  - unfold util.IsLayerEnabled at 1.
    destruct (util.compiletimeEnabled specialisation FirstLayer); rewrite IH; reflexivity.
Qed.

Lemma LayerFilter_enabled_only (Layers : list (util.Ty Name)) (T : util.Ty Name) :
  In T (util.Layers_of (util.LayerFilter specialisation Layers)) ->
  util.IsLayerEnabled specialisation T = true.
Proof.
  unfold util.LayerFilter, util.LayerFilterImpl.
  destruct Layers as [| [n | Packed] [| Second Others]];
    rewrite EnabledLayers_filter; cbn [util.Layers_of];
    rewrite List.filter_In; tauto.
Qed.

(** C6.  [LayerFilter], given layer types one by one or in one
    [LayerPack], yields the pipeline of exactly those among them whose
    [compiletimeEnabled] is true, in the order they were given. *)
Theorem LayerFilter_keeps_enabled_in_order (declared : list Name) (Packed : list (util.Ty Name)) :
  util.LayerFilter specialisation (map util.UserType declared) =
    util.Strata (List.filter (util.IsLayerEnabled specialisation) (map util.UserType declared))
  /\
  util.LayerFilter specialisation [util.LayerPack Packed] =
    util.Strata (List.filter (util.IsLayerEnabled specialisation) Packed).
Proof.
  split.
  - unfold util.LayerFilter, util.LayerFilterImpl.
    destruct declared as [| n [| n' others]]; apply EnabledLayers_filter.
  - apply EnabledLayers_filter.
Qed.

(** C9.  A layer type for which the program declares no [LayerTraits]
    specialisation has [compiletimeEnabled] false, so [IsLayerEnabled] is
    false and no pipeline that [LayerFilter] produces contains it. *)
Theorem unspecialised_layer_is_left_out (T : util.Ty Name) :
  specialisation T = None ->
  util.compiletimeEnabled specialisation T = false /\
  util.IsLayerEnabled specialisation T = false /\
  forall Layers : list (util.Ty Name),
    ~ In T (util.Layers_of (util.LayerFilter specialisation Layers)).
Proof.
  intros Hnone.
  assert (Hoff : util.compiletimeEnabled specialisation T = false).
  { unfold util.compiletimeEnabled. rewrite Hnone. reflexivity. }
  split; [exact Hoff |]. split; [exact Hoff |].
  intros Layers Hin. apply LayerFilter_enabled_only in Hin.
  unfold util.IsLayerEnabled in Hin. congruence.
Qed.

End FilterFacts.

(** ** [LayerState] *)

Section StoreFacts.

Variables T W Exn : Type.

Implicit Types (st : LayerState.SState T W Exn).

Lemma notify_loop_Normal (observers : list (LayerState.Observer T W Exn)) :
  forall (first : nat) st (u : unit) st',
  LayerState.notify_loop first observers st = (Normal u, st') ->
  LayerState.store st' = LayerState.store st /\
  LayerState.notified st' =
  LayerState.notified st ++ LayerState.each_once first observers (LayerState.data_ (LayerState.store st)).
Proof.
  induction observers as [| observer rest IH]; intros first st u st' H; simpl in H.
  - injection H as _ <-. unfold LayerState.each_once. simpl. rewrite app_nil_r. auto.
  - apply bind_Normal in H as (u1 & s1 & H1 & H2).
    unfold LayerState.call_observer in H1.
    destruct (observer _ _) as [o w1]. injection H1 as -> <-.
    apply IH in H2 as [Hstore Hnotified]. simpl in *.
    split; [exact Hstore |].
    rewrite Hnotified. unfold LayerState.each_once. simpl. rewrite <- app_assoc. reflexivity.
Qed.

Lemma notifyObservers_Normal st (u : unit) st' :
  LayerState.notifyObservers st = (Normal u, st') ->
  LayerState.store st' = LayerState.store st /\
  LayerState.notified st' =
  LayerState.notified st ++
  LayerState.each_once 0 (LayerState.observers_ (LayerState.store st)) (LayerState.data_ (LayerState.store st)).
Proof. apply notify_loop_Normal. Qed.

Lemma on_data_keeps {X : Type} (func : LayerState.Accessor T W Exn X) st (o : outcome Exn X) st1 :
  LayerState.on_data func st = (o, st1) ->
  LayerState.observers_ (LayerState.store st1) = LayerState.observers_ (LayerState.store st) /\
  LayerState.notified st1 = LayerState.notified st.
Proof.
  unfold LayerState.on_data. destruct (func _ _) as [o1 [d' w']].
  intros [= _ <-]. simpl. auto.
Qed.

Lemma access_not_Terminated {X : Type} (scope : LayerState.Accessor T W Exn X) st
    (o : outcome Exn X) st' :
  LayerState.access scope st = (o, st') ->
  o <> Terminated ->
  exists st1 (u : unit),
    LayerState.on_data scope st = (o, st1) /\
    LayerState.notifyObservers st1 = (Normal u, st').
Proof.
  unfold LayerState.access, LayerState.Proxy_destructor, bind, ret.
  destruct (LayerState.on_data scope st) as [[x | e |] st1].
  - destruct (LayerState.notifyObservers st1) as [[[] | e |] st2] eqn:Hn;
      intros [= <- <-] Hnot; try congruence. eauto.
  - destruct (LayerState.notifyObservers st1) as [[[] | e' |] st2] eqn:Hn;
      intros [= <- <-] Hnot; try congruence. eauto.
  - intros [= <- <-] Hnot. congruence.
Qed.

Lemma notify_loop_leaves (observers : list (LayerState.Observer T W Exn)) :
  forall (first : nat) st (u : unit) st',
  LayerState.notify_loop first observers st = (Normal u, st') ->
  LayerState.observers_leave observers (LayerState.data_ (LayerState.store st))
    (LayerState.env st) = Some (LayerState.env st').
Proof.
  induction observers as [| observer rest IH]; intros first st u st' H; simpl in H.
  - injection H as _ <-. reflexivity.
  - apply bind_Normal in H as (u1 & s1 & H1 & H2).
    unfold LayerState.call_observer in H1. simpl.
    destruct (observer _ _) as [o w1]. injection H1 as -> <-.
    apply IH in H2. exact H2.
Qed.

Lemma notifyObservers_leaves st (u : unit) st' :
  LayerState.notifyObservers st = (Normal u, st') ->
  LayerState.observers_leave (LayerState.observers_ (LayerState.store st))
    (LayerState.data_ (LayerState.store st)) (LayerState.env st) = Some (LayerState.env st').
Proof. apply notify_loop_leaves. Qed.

(** C7.  A write, a modify or an access scope that completes calls every
    observer in [observers_] once, in the order of the vector, each with
    the value the state holds after the mutation: the calls are recorded
    so, and what the observers captured is what these calls, one after the
    other, leave.  [addObserver] appends to that vector, so this order is
    the order of registration; [read] calls no observer and changes
    nothing. *)
Theorem mutation_notifies_each_observer_once (m : LayerState.Mutation T W Exn) st (u : unit) st' :
  LayerState.run_mutation m st = (Normal u, st') ->
  (exists st1,
     LayerState.mutation_step m st = (Normal tt, st1) /\
     LayerState.store st' = LayerState.store st1 /\
     LayerState.observers_ (LayerState.store st1) = LayerState.observers_ (LayerState.store st) /\
     LayerState.notified st' =
     LayerState.notified st ++
     LayerState.each_once 0 (LayerState.observers_ (LayerState.store st))
               (LayerState.data_ (LayerState.store st1)) /\
     LayerState.observers_leave (LayerState.observers_ (LayerState.store st))
       (LayerState.data_ (LayerState.store st1)) (LayerState.env st1) =
     Some (LayerState.env st')) /\
  (forall observer : LayerState.Observer T W Exn,
     LayerState.observers_ (LayerState.store (snd (LayerState.addObserver observer st))) =
     LayerState.observers_ (LayerState.store st) ++ [observer]) /\
  LayerState.read st = (Normal (LayerState.data_ (LayerState.store st)), st).
Proof.
  intros Hrun. split; [| split; [reflexivity | reflexivity]].
  destruct m as [newData | func | scope]; simpl in *.
  - unfold LayerState.write in Hrun.
    apply bind_Normal in Hrun as ([] & s1 & H1 & H2).
    exists s1. split; [exact H1 |].
    pose proof (notifyObservers_leaves _ _ _ H2) as Hl.
    apply notifyObservers_Normal in H2 as [Hs Hn].
    unfold LayerState.assign_data in H1. injection H1 as <-. simpl in *. auto.
  - unfold LayerState.modify in Hrun.
    apply bind_Normal in Hrun as ([] & s1 & H1 & H2).
    exists s1. split; [exact H1 |].
    pose proof (notifyObservers_leaves _ _ _ H2) as Hl.
    apply notifyObservers_Normal in H2 as [Hs Hn].
    apply on_data_keeps in H1 as [Ho Hk]. rewrite Hn, <- Ho, Hk. auto.
  - apply access_not_Terminated in Hrun as (s1 & u' & H1 & H2); [| discriminate].
    destruct u. exists s1. split; [exact H1 |].
    pose proof (notifyObservers_leaves _ _ _ H2) as Hl.
    apply notifyObservers_Normal in H2 as [Hs Hn].
    apply on_data_keeps in H1 as [Ho Hk]. rewrite Hn, <- Ho, Hk. auto.
Qed.

(** C10.  Either overload of [LayerStateWrapper::operator->] goes through
    [access()]: unless the process is terminated, the end of the proxy's
    life calls every observer once, whatever was done with the member
    reached, and what the observers captured is what these calls leave.  A
    use that only looks at the state leaves the state as it was and still
    has every observer called, with that state. *)
Theorem operator_arrow_notifies {X : Type} (const_overload : bool)
    (use : LayerState.Accessor T W Exn X) st (o : outcome Exn X) st' :
  LayerState.Wrapper_arrow const_overload use st = (o, st') ->
  o <> Terminated ->
  (exists st1,
     LayerState.on_data use st = (o, st1) /\
     LayerState.store st' = LayerState.store st1 /\
     LayerState.notified st' =
     LayerState.notified st ++
     LayerState.each_once 0 (LayerState.observers_ (LayerState.store st))
               (LayerState.data_ (LayerState.store st1)) /\
     LayerState.observers_leave (LayerState.observers_ (LayerState.store st))
       (LayerState.data_ (LayerState.store st1)) (LayerState.env st1) =
     Some (LayerState.env st')) /\
  (forall look : T -> X,
     use = LayerState.read_only look ->
     o = Normal (look (LayerState.data_ (LayerState.store st))) /\
     LayerState.data_ (LayerState.store st') = LayerState.data_ (LayerState.store st) /\
     LayerState.notified st' =
     LayerState.notified st ++
     LayerState.each_once 0 (LayerState.observers_ (LayerState.store st))
               (LayerState.data_ (LayerState.store st)) /\
     LayerState.observers_leave (LayerState.observers_ (LayerState.store st))
       (LayerState.data_ (LayerState.store st)) (LayerState.env st) =
     Some (LayerState.env st')).
Proof.
  intros Hrun Hnot.
  assert (Haccess : LayerState.access use st = (o, st')).
  { destruct const_overload; exact Hrun. }
  apply access_not_Terminated in Haccess as (s1 & u & H1 & H2); [| exact Hnot].
  pose proof (notifyObservers_leaves _ _ _ H2) as Hl.
  apply notifyObservers_Normal in H2 as [Hs Hn].
  pose proof (on_data_keeps _ _ _ _ H1) as [Ho Hk].
  rewrite Ho in Hl.
  assert (Hall : LayerState.notified st' =
                 LayerState.notified st ++
                 LayerState.each_once 0 (LayerState.observers_ (LayerState.store st))
                           (LayerState.data_ (LayerState.store s1))).
  { rewrite Hn, Ho, Hk. reflexivity. }
  split; [eauto 6 |].
  intros look ->. unfold LayerState.on_data, LayerState.read_only in H1.
  injection H1 as <- <-. simpl in *. rewrite Hs. simpl. auto.
Qed.

End StoreFacts.

(** ** The registry and the current context *)

Section RegistryFacts.

Import LayerStateRegistry.

Implicit Types (T : type_index) (key : string) (r : Registry).

Lemma typeMap_lookup T key r :
  default (∅ : gmap string nat) (states_ r !! T) !! key = find_state T key r.
Proof.
  unfold find_state. destruct (states_ r !! T) as [typeMap |]; simpl.
  - reflexivity.
  - apply lookup_empty.
Qed.

Lemma getOrCreateState_fst T key r :
  fst (getOrCreateState T key r) =
  match find_state T key r with
  | Some found => found
  | None => fresh_ r
  end.
Proof.
  unfold getOrCreateState. rewrite typeMap_lookup.
  destruct (find_state T key r); reflexivity.
Qed.

Lemma getOrCreateState_fresh T key r :
  fresh_ r <= fresh_ (snd (getOrCreateState T key r)) /\
  (find_state T key r = None -> fresh_ (snd (getOrCreateState T key r)) = S (fresh_ r)).
Proof.
  unfold getOrCreateState. rewrite typeMap_lookup.
  destruct (find_state T key r); simpl; split; (lia || congruence).
Qed.

Lemma find_state_getOrCreateState T key r T' key' :
  find_state T' key' (snd (getOrCreateState T key r)) =
  if decide (T' = T /\ key' = key)
  then Some (fst (getOrCreateState T key r))
  else find_state T' key' r.
Proof.
  pose proof (typeMap_lookup T key r) as Hkey.
  pose proof (typeMap_lookup T key' r) as Hkey'.
  unfold getOrCreateState.
  destruct (default ∅ (states_ r !! T) !! key) as [found |] eqn:Hfound;
    unfold find_state at 1; simpl.
  - destruct (decide (T' = T)) as [-> | HT].
    + rewrite lookup_insert_eq. simpl. rewrite Hkey'.
      case_decide as Hd.
      * destruct Hd as [_ ->]. congruence.
      * reflexivity.
    + rewrite lookup_insert_ne by congruence.
      case_decide as Hd; [destruct Hd; contradiction | reflexivity].
  - destruct (decide (T' = T)) as [-> | HT].
    + rewrite lookup_insert_eq. simpl.
      destruct (decide (key' = key)) as [-> | Hk].
      * rewrite lookup_insert_eq. rewrite decide_True by auto. reflexivity.
      * rewrite lookup_insert_ne by congruence. rewrite Hkey'.
        rewrite decide_False by tauto. reflexivity.
    + rewrite lookup_insert_ne by congruence.
      rewrite decide_False by tauto. reflexivity.
Qed.

Lemma consistent_instance : consistent instance.
Proof.
  split.
  - intros T key p H. unfold find_state, instance in H. simpl in H.
    rewrite lookup_empty in H. discriminate.
  - intros T1 key1 T2 key2 p H. unfold find_state, instance in H. simpl in H.
    rewrite lookup_empty in H. discriminate.
Qed.

Lemma getOrCreateState_consistent T key r :
  consistent r -> consistent (snd (getOrCreateState T key r)).
Proof.
  intros [Hbound Hinj].
  pose proof (getOrCreateState_fst T key r) as Hfst.
  pose proof (getOrCreateState_fresh T key r) as [Hle Hnew].
  split.
  - intros T' key' p. rewrite find_state_getOrCreateState.
    case_decide as Hd.
    + intros [= <-]. rewrite Hfst.
      destruct (find_state T key r) as [found |] eqn:Hf.
      * specialize (Hbound _ _ _ Hf). lia.
      * rewrite Hnew by reflexivity. lia.
    + intros Hp. specialize (Hbound _ _ _ Hp). lia.
  - intros T1 key1 T2 key2 p. rewrite !find_state_getOrCreateState.
    assert (Hother : forall T' key', find_state T' key' r = Some (fst (getOrCreateState T key r)) ->
                                     T' = T /\ key' = key).
    { intros T' key' Hp. rewrite Hfst in Hp.
      destruct (find_state T key r) as [found |] eqn:Hf.
      - apply (Hinj _ _ _ _ _ Hp Hf).
      - specialize (Hbound _ _ _ Hp). lia. }
    repeat case_decide.
    + intros _ _. destruct H as [-> ->], H0 as [-> ->]. auto.
    + intros [= <-] Hp. apply Hother in Hp. tauto.
    + intros Hp [= <-]. apply Hother in Hp. tauto.
    + apply Hinj.
Qed.

(** C8, as the code has it.  A thread that never called
    [setCurrentContext] has the empty string as its current context:
    [current()] is [forContext("")], and in a registry kept by its own
    operations the store it hands out is not the one [global()] hands out.
    [current()] is [global()] once the context has been set to "global". *)
Theorem current_on_fresh_thread_uses_empty_key T r :
  consistent r ->
  getCurrentContext thread_start = "" /\
  LayerStateManager.current T thread_start r = LayerStateManager.forContext T "" r /\
  fst (LayerStateManager.current T thread_start (snd (LayerStateManager.global T r))) <>
  fst (LayerStateManager.global T r) /\
  forall t : ThreadLocal,
    LayerStateManager.current T (setCurrentContext "global" t) r = LayerStateManager.global T r.
Proof.
  intros Hr. split; [reflexivity |]. split; [reflexivity |]. split; [| reflexivity].
  unfold LayerStateManager.current, LayerStateManager.global, getCurrentContext. simpl.
  pose proof (getOrCreateState_consistent T "global" r Hr) as [Hbound Hinj].
  assert (Hg : find_state T "global" (snd (getOrCreateState T "global" r)) =
               Some (fst (getOrCreateState T "global" r))).
  { rewrite find_state_getOrCreateState. rewrite decide_True by auto. reflexivity. }
  destruct (getOrCreateState T "global" r) as [handle r1]. simpl in *.
  rewrite getOrCreateState_fst.
  destruct (find_state T "" r1) as [found |] eqn:Hf.
  - intros ->. destruct (Hinj _ _ _ _ _ Hf Hg) as [_ Hkeys]. discriminate.
  - specialize (Hbound _ _ _ Hg). lia.
Qed.

End RegistryFacts.

(** ** The sample programs, run *)

Section SampleRuns.

Import Samples LayerStateRegistry.


(** C2 on [three_layers] with a negative argument, and on a wrapped
    function that throws. *)
Lemma Exec_exception_paths_witness :
  built (Exec three_layers LayerOpAdd Add (-1, 3)%Z) initial =
    (Thrown "Negative numbers not allowed",
     {| world := {| operationCount := 1; Log := [] |};
        calls := [CallBefore "MetricsLayer" (-1, 3)%Z; CallBefore "ValidationLayer" (-1, 3)%Z] |})
  /\
  built (Exec [MetricsLayer] LayerOpAdd Failing (5, 3)%Z) initial =
    (Thrown "core failed",
     {| world := {| operationCount := 1; Log := [] |};
        calls := [CallBefore "MetricsLayer" (5, 3)%Z; CallCore (5, 3)%Z] |}).
Proof.
  split.
  - refine (proj1 (Exec_exception_paths _ _ _ _ three_layers LayerOpAdd Add (-1, 3)%Z _ initial _)
              [LoggingLayer; MetricsLayer] ValidationLayer [] validate
              {| world := {| operationCount := 1; Log := [] |};
                 calls := [CallBefore "MetricsLayer" (-1, 3)%Z] |}
              "Negative numbers not allowed" {| operationCount := 1; Log := [] |} tt _ _ _ _);
      reflexivity.
  - refine (proj2 (Exec_exception_paths _ _ _ _ [MetricsLayer] LayerOpAdd Failing (5, 3)%Z _ initial _)
              {| world := {| operationCount := 1; Log := [] |};
                 calls := [CallBefore "MetricsLayer" (5, 3)%Z] |}
              "core failed" {| operationCount := 1; Log := [] |} tt _ _);
      reflexivity.
Defined.

(** C5 on two layers that rewrite the result, where [Add(5, 3)] comes back
    as [2 * (8 + 1)], and on a void operation through [CounterLayer], whose
    [After(int, int)] is called with the two arguments. *)
Lemma Exec_after_hooks_share_result_witness :
  Exec [DoublingLayer; IncrementLayer] LayerOpAdd Add (5, 3)%Z =
    Built (built (Exec [DoublingLayer; IncrementLayer] LayerOpAdd Add (5, 3)%Z)) /\
  (forall st,
    built (Exec [DoublingLayer; IncrementLayer] LayerOpAdd Add (5, 3)%Z) st =
    (before_chain LayerOpAdd [DoublingLayer; IncrementLayer] (5, 3)%Z ;;;
     result <- invoke (CallCore (5, 3)%Z) (fun w => (Normal 8%Z, w)) ;;;
     final <- after_chain_result LayerOpAdd (rev [DoublingLayer; IncrementLayer]) (5, 3)%Z result ;;;
     ret (ReturnedValue final)) st) /\
  built (Exec [DoublingLayer; IncrementLayer] LayerOpAdd Add (5, 3)%Z) initial =
    (Normal (ReturnedValue 18%Z),
     {| world := {| operationCount := 0; Log := [] |};
        calls := [CallCore (5, 3)%Z;
                  CallAfter "IncrementLayer" (Some 8%Z) (5, 3)%Z;
                  CallAfter "DoublingLayer" (Some 9%Z) (5, 3)%Z] |}) /\
  Exec [MoreSamples.CounterLayer] LayerOpStore Store (5, 3)%Z =
    Built (built (Exec [MoreSamples.CounterLayer] LayerOpStore Store (5, 3)%Z)) /\
  built (Exec [MoreSamples.CounterLayer] LayerOpStore Store (5, 3)%Z) initial =
    (Normal ReturnedVoid,
     {| world := {| operationCount := 1; Log := [8%Z; 8%Z] |};
        calls := [CallBefore "CounterLayer" (5, 3)%Z;
                  CallCore (5, 3)%Z;
                  CallAfter "CounterLayer" None (5, 3)%Z] |}).
Proof.
  split; [reflexivity |].
  split; [exact (Exec_after_hooks_share_result _ _ _ _ [DoublingLayer; IncrementLayer] LayerOpAdd
                   Add (5, 3)%Z _ eq_refl) |].
  split; [exact (eq_trans
                   (Exec_after_hooks_share_result _ _ _ _ [DoublingLayer; IncrementLayer]
                      LayerOpAdd Add (5, 3)%Z _ eq_refl initial) eq_refl) |].
  split; [reflexivity |].
  exact (eq_trans
           (Exec_after_hooks_share_result _ _ _ _ [MoreSamples.CounterLayer] LayerOpStore Store
              (5, 3)%Z _ eq_refl initial) eq_refl).
Defined.

(** C3 at its failing input: without layers a value-returning operation
    is the one call of the wrapped function; a void operation is not
    built, and the body it would run calls the wrapped function twice
    before it comes to the call that cannot be resolved. *)
Theorem Exec_without_layers_by_return_type :
  run (Exec [] LayerOpAdd Add (5, 3)%Z) =
    Some (Normal (ReturnedValue 8%Z),
          {| world := world initial; calls := [CallCore (5, 3)%Z] |}) /\
  Exec [] LayerOpStore Store (5, 3)%Z = BuildError /\
  forall afters : Prog Args Z World string unit,
    Exec_void_body [] (ret tt) (invoke (CallCore (5, 3)%Z) (store_sum (5, 3)%Z)) afters initial =
    (afters ;;; ret ReturnedVoid)
      {| world := {| operationCount := 0; Log := [8%Z; 8%Z] |};
         calls := [CallCore (5, 3)%Z; CallCore (5, 3)%Z] |}.
Proof.
  split; [reflexivity |]. split; [reflexivity |].
  intros afters.
  apply (Exec_void_body_without_layers _ _ _ _ store_sum (5, 3)%Z afters initial
           {| operationCount := 0; Log := [8%Z] |}); reflexivity.
Qed.

(** C4 at its failing input: [TimerLayer] has a generic [After] that takes
    the arguments alone and no operation-specific one; for the void
    operation the hook is not called, for the value-returning one it is. *)
Theorem generic_After_is_skipped_for_void :
  is_Some (member_After TimerLayer VoidArg ≫= after_call_args) /\
  is_Some (member_After TimerLayer (OpArg LayerOpStore) ≫= after_call_args) /\
  has_specific_after_impl TimerLayer LayerOpStore = false /\
  calls_made (Exec [TimerLayer] LayerOpStore Store (5, 3)%Z) =
    Some [CallBefore "TimerLayer" (5, 3)%Z; CallCore (5, 3)%Z] /\
  calls_made (Exec [TimerLayer] LayerOpAdd Add (5, 3)%Z) =
    Some [CallBefore "TimerLayer" (5, 3)%Z; CallCore (5, 3)%Z;
          CallAfter "TimerLayer" (Some 8%Z) (5, 3)%Z].
Proof.
  split; [eexists; reflexivity |]. split; [eexists; reflexivity |].
  split; [reflexivity |]. split; reflexivity.
Qed.

(** C9 on the traits of the utility tests, where [Layer4] has no
    specialisation. *)
Lemma unspecialised_layer_is_left_out_witness :
  test_traits (util.UserType "Layer4") = None /\
  util.compiletimeEnabled test_traits (util.UserType "Layer4") = false /\
  util.IsLayerEnabled test_traits (util.UserType "Layer4") = false /\
  forall Layers : list (util.Ty string),
    ~ In (util.UserType "Layer4") (util.Layers_of (util.LayerFilter test_traits Layers)).
Proof.
  split; [reflexivity |].
  exact (unspecialised_layer_is_left_out test_traits (util.UserType "Layer4") eq_refl).
Defined.

(** C7 on a store with two observers and [write(5)]: both recorders are
    called with 5, and the environment holds what they captured. *)
Lemma mutation_notifies_each_observer_once_witness :
  LayerState.run_mutation (LayerState.ByWrite 5%Z) observed_store =
    (Normal tt, snd (LayerState.run_mutation (LayerState.ByWrite 5%Z) observed_store)) /\
  LayerState.notified (snd (LayerState.run_mutation (LayerState.ByWrite 5%Z) observed_store)) =
    [LayerState.Notify 0 5%Z; LayerState.Notify 1 5%Z] /\
  LayerState.env (snd (LayerState.run_mutation (LayerState.ByWrite 5%Z) observed_store)) =
    [(1%Z, 5%Z); (2%Z, 5%Z)] /\
  LayerState.data_ (LayerState.store
    (snd (LayerState.run_mutation (LayerState.ByWrite 5%Z) observed_store))) = 5%Z /\
  LayerState.read observed_store = (Normal 0%Z, observed_store).
Proof.
  assert (H : LayerState.run_mutation (LayerState.ByWrite 5%Z) observed_store =
              (Normal tt, snd (LayerState.run_mutation (LayerState.ByWrite 5%Z) observed_store)))
    by reflexivity.
  split; [exact H |].
  destruct (mutation_notifies_each_observer_once _ _ _ _ _ _ _ H)
    as [(st1 & Hstep & Hstore & _ & Hnotified & Hleave) [_ Hread]].
  injection Hstep as <-.
  split; [exact Hnotified |].
  split; [| split; [rewrite Hstore; reflexivity | exact Hread]].
  exact (eq_sym (f_equal (from_option id []) Hleave)).
Defined.

(** C10 on the same store and a look at the number through the const
    overload: the number is as it was, and both recorders captured it. *)
Lemma operator_arrow_notifies_witness :
  LayerState.Wrapper_arrow true (LayerState.read_only (fun d : Z => d)) observed_store =
    (Normal 0%Z,
     snd (LayerState.Wrapper_arrow true (LayerState.read_only (fun d : Z => d)) observed_store)) /\
  Normal 0%Z <> @Terminated string Z /\
  LayerState.data_ (LayerState.store
    (snd (LayerState.Wrapper_arrow true (LayerState.read_only (fun d : Z => d)) observed_store))) = 0%Z /\
  LayerState.notified
    (snd (LayerState.Wrapper_arrow true (LayerState.read_only (fun d : Z => d)) observed_store)) =
    [LayerState.Notify 0 0%Z; LayerState.Notify 1 0%Z] /\
  LayerState.env
    (snd (LayerState.Wrapper_arrow true (LayerState.read_only (fun d : Z => d)) observed_store)) =
    [(1%Z, 0%Z); (2%Z, 0%Z)].
Proof.
  assert (H : LayerState.Wrapper_arrow true (LayerState.read_only (fun d : Z => d)) observed_store =
              (Normal 0%Z,
               snd (LayerState.Wrapper_arrow true (LayerState.read_only (fun d : Z => d))
                      observed_store))) by reflexivity.
  assert (Hnot : Normal 0%Z <> @Terminated string Z) by discriminate.
  split; [exact H |]. split; [exact Hnot |].
  destruct (proj2 (operator_arrow_notifies _ _ _ _ _ _ _ _ H Hnot) (fun d => d) eq_refl)
    as (_ & Hdata & Hnotified & Hleave).
  split; [exact Hdata |]. split; [exact Hnotified |].
  exact (eq_sym (f_equal (from_option id []) Hleave)).
Defined.

(** C8 as stated fails on the registry at process start: the default
    context is not "global", and [current()] hands out another store than
    [global()]. *)
Lemma current_on_fresh_thread_is_not_global :
  getCurrentContext thread_start <> "global" /\
  fst (LayerStateManager.current "TestState" thread_start
         (snd (LayerStateManager.global "TestState" instance))) <>
  fst (LayerStateManager.global "TestState" instance).
Proof. split; [discriminate | vm_compute; discriminate]. Qed.

(** C8 as the code has it, on the registry at process start. *)
Lemma current_on_fresh_thread_uses_empty_key_witness :
  consistent instance /\
  getCurrentContext thread_start = "" /\
  LayerStateManager.current "TestState" thread_start instance =
    LayerStateManager.forContext "TestState" "" instance /\
  fst (LayerStateManager.current "TestState" thread_start
         (snd (LayerStateManager.global "TestState" instance))) <>
  fst (LayerStateManager.global "TestState" instance) /\
  forall t : ThreadLocal,
    LayerStateManager.current "TestState" (setCurrentContext "global" t) instance =
    LayerStateManager.global "TestState" instance.
Proof.
  split; [exact consistent_instance |].
  exact (current_on_fresh_thread_uses_empty_key "TestState" instance consistent_instance).
Defined.

End SampleRuns.

(** * Further properties *)

(** ** The pipeline: layers without hooks, nesting, faults, building *)

Import Nesting.

Section PipelineMore.

Variables A V W Exn : Type.

Implicit Types (L First Li Lj : Layer A V W Exn) (Layers Rest order pre post : list (Layer A V W Exn)).
Implicit Types (Op : LayerOp) (args : A) (st : PState A V W).

Lemma hookless_before_chain Op order args st :
  Forall (hookless Op) order -> before_chain Op order args st = (Normal tt, st).
Proof.
  induction 1 as [| L later [Hb _] _ IH]; simpl; [reflexivity |].
  rewrite Hb. exact IH.
Qed.

Lemma hookless_after_chain_result Op order args (result : V) st :
  Forall (hookless Op) order -> after_chain_result Op order args result st = (Normal result, st).
Proof.
  induction 1 as [| L later (_ & Ha & _) _ IH]; simpl; [reflexivity |].
  rewrite Ha. exact IH.
Qed.

Lemma hookless_after_chain_args Op order args st :
  Forall (hookless Op) order -> after_chain_args Op order args st = (Normal tt, st).
Proof.
  induction 1 as [| L later (_ & _ & Ha) _ IH]; simpl; [reflexivity |].
  rewrite Ha. exact IH.
Qed.


Lemma before_chain_skip Op pre L post args st :
  resolved_before Op L = None ->
  before_chain Op (pre ++ L :: post) args st = before_chain Op (pre ++ post) args st.
Proof.
  intros HL. rewrite !before_chain_app.
  apply bind_ext; [reflexivity |]. intros _ s'. simpl. rewrite HL. reflexivity.
Qed.

Lemma after_chain_result_skip Op order1 L order2 args (result : V) st :
  resolved_after_result Op L = None ->
  after_chain_result Op (order1 ++ L :: order2) args result st =
  after_chain_result Op (order1 ++ order2) args result st.
Proof.
  intros HL. rewrite !after_chain_result_app.
  apply bind_ext; [reflexivity |]. intros r s'. simpl. rewrite HL. reflexivity.
Qed.

Lemma after_chain_args_skip Op order1 L order2 args st :
  resolved_after_args Op L = None ->
  after_chain_args Op (order1 ++ L :: order2) args st =
  after_chain_args Op (order1 ++ order2) args st.
Proof.
  intros HL. rewrite !after_chain_args_app.
  apply bind_ext; [reflexivity |]. intros _ s'. simpl. rewrite HL. reflexivity.
Qed.

Lemma rev_middle (pre post : list (Layer A V W Exn)) (L : Layer A V W Exn) :
  rev (pre ++ L :: post) = rev post ++ L :: rev pre.
Proof. rewrite rev_app_distr. simpl. rewrite <- app_assoc. reflexivity. Qed.

(** *** What a pipeline that builds tells of its layers *)

Lemma ApplyBeforeIfExists_fit Op L args (p : Prog A V W Exn unit) :
  ApplyBeforeIfExists Op L args = Built p ->
  has_specific_before_impl L Op || has_generic_before_impl L = true ->
  is_Some (resolved_before Op L).
Proof.
  unfold ApplyBeforeIfExists, resolved_before, call_Before.
  destruct (has_specific_before_impl L Op), (has_generic_before_impl L); cbn [orb];
    try (intros _ Hfalse; discriminate Hfalse);
    (destruct (member_Before L (OpArg Op)) as [m |]; cbn; [| discriminate];
     destruct (before_call m); [eauto | discriminate]).
Qed.

Lemma ApplyBeforeFold_fit Op Layers args (p : Prog A V W Exn unit) :
  ApplyBeforeFold Op Layers args = Built p ->
  Forall (fun L => has_specific_before_impl L Op || has_generic_before_impl L = true ->
                   is_Some (resolved_before Op L)) Layers.
Proof.
  revert p. induction Layers as [| L Ls IH]; intros p H; simpl in H; [constructor |].
  destruct (ApplyBeforeIfExists Op L args) as [first |] eqn:Hfirst; simpl in H; [| discriminate].
  destruct (ApplyBeforeFold Op Ls args) as [others |] eqn:Hothers; simpl in H; [| discriminate].
  constructor; [exact (ApplyBeforeIfExists_fit _ _ _ _ Hfirst) | exact (IH _ eq_refl)].
Qed.

Lemma ApplyAfterIfExists_result_fit Op Rest :
  forall First args (p : V -> Prog A V W Exn V),
  ApplyAfterIfExists_result Op First Rest args = Built p ->
  Forall (fun L => has_specific_after_impl L Op || has_generic_after_impl L NonVoid = true ->
                   is_Some (resolved_after_result Op L)) (First :: Rest).
Proof.
  induction Rest as [| R Rs IH]; intros First args p H;
    rewrite ApplyAfterIfExists_result_unfold in H.
  - cbn [build_bind] in H. constructor; [| constructor].
    unfold resolved_after_result. unfold call_After_result in H.
    destruct (has_specific_after_impl First Op), (has_generic_after_impl First NonVoid);
      cbn [orb]; try (intros [=]);
      (destruct (member_After First (OpArg Op)) as [m |]; cbn in *; [| discriminate];
       destruct (after_call_result m); [eauto | discriminate]).
  - destruct (ApplyAfterIfExists_result Op R Rs args) as [inner |] eqn:Hinner;
      cbn [build_bind] in H; [| discriminate].
    constructor; [| exact (IH _ _ _ Hinner)].
    unfold resolved_after_result. unfold call_After_result in H.
    destruct (has_specific_after_impl First Op), (has_generic_after_impl First NonVoid);
      cbn [orb]; try (intros [=]);
      (destruct (member_After First (OpArg Op)) as [m |]; cbn in *; [| discriminate];
       destruct (after_call_result m); [eauto | discriminate]).
Qed.

Lemma ApplyAfterIfExists_void_fit Op Rest :
  forall First args (p : Prog A V W Exn unit),
  ApplyAfterIfExists_void Op First Rest args = Built p ->
  Forall (fun L => has_specific_after_impl L Op || has_generic_after_impl L Void = true ->
                   is_Some (resolved_after_args Op L)) (First :: Rest).
Proof.
  induction Rest as [| R Rs IH]; intros First args p H;
    rewrite ApplyAfterIfExists_void_unfold in H.
  - cbn [build_bind] in H. constructor; [| constructor].
    unfold resolved_after_args. unfold call_After_args in H.
    destruct (has_specific_after_impl First Op); cbn in *; try (intros [=]).
    destruct (member_After First (OpArg Op)) as [m |]; cbn in *; [| discriminate].
    destruct (after_call_args m); [eauto | discriminate].
  - destruct (ApplyAfterIfExists_void Op R Rs args) as [inner |] eqn:Hinner;
      cbn [build_bind] in H; [| discriminate].
    constructor; [| exact (IH _ _ _ Hinner)].
    unfold resolved_after_args. unfold call_After_args in H.
    destruct (has_specific_after_impl First Op); cbn in *; try (intros [=]).
    destruct (member_After First (OpArg Op)) as [m |]; cbn in *; [| discriminate].
    destruct (after_call_args m); [eauto | discriminate].
Qed.

Lemma Exec_Built_fit Layers Op (func : Func A V W Exn) args (p : Prog A V W Exn (Returned V)) :
  Exec Layers Op func args = Built p ->
  validates_function Op func = true /\
  Forall (calls_fit Op) Layers /\
  (Layers <> [] \/ ReturnType Op = NonVoid).
Proof.
  unfold Exec. destruct (validates_function Op func) eqn:Hvalid; cbn; [| discriminate].
  destruct (ApplyBeforeFold Op Layers args) as [befores |] eqn:Hb; cbn; [| discriminate].
  apply ApplyBeforeFold_fit in Hb.
  unfold validates_function in Hvalid.
  destruct (ReturnType Op) eqn:HRT, func as [f | f]; try discriminate.
  - destruct (ApplyAfter_line92 Op Layers args) as [afters |] eqn:Ha; cbn; [| discriminate].
    intros _. split; [reflexivity |].
    destruct Layers as [| First Rest]; [discriminate |].
    split; [| left; discriminate].
    cbn [ApplyAfter_line92] in Ha. apply ApplyAfterIfExists_void_fit in Ha.
    pose proof (List.Forall_and Hb Ha) as Hboth.
    eapply List.Forall_impl; [| exact Hboth].
    intros L [HLb HLa]. unfold calls_fit. rewrite HRT. auto.
  - destruct (ApplyAfter_line97 Op Layers args) as [afters |] eqn:Ha; cbn; [| discriminate].
    intros _. split; [reflexivity |]. split; [| right; reflexivity].
    destruct Layers as [| First Rest]; [constructor |].
    cbn [ApplyAfter_line97] in Ha. apply ApplyAfterIfExists_result_fit in Ha.
    pose proof (List.Forall_and Hb Ha) as Hboth.
    eapply List.Forall_impl; [| exact Hboth].
    intros L [HLb HLa]. unfold calls_fit. rewrite HRT. auto.
Qed.


Lemma around_ext Op L args (inner inner' : Prog A V W Exn (Returned V)) :
  (forall st, inner st = inner' st) ->
  forall st, around Op L args inner st = around Op L args inner' st.
Proof.
  intros Hsame st. unfold around.
  apply bind_ext; [reflexivity |]. intros _ s1.
  apply bind_ext; [apply Hsame | reflexivity].
Qed.

Lemma run_through_cons Op L Rest (func : Func A V W Exn) args st :
  run_through Op (L :: Rest) func args st =
  around Op L args (run_through Op Rest func args) st.
Proof.
  destruct func as [f | f]; unfold run_through, around, own_before; simpl before_chain.
  - assert (Hin : forall s,
      (before_chain Op Rest args ;;;
       invoke (CallCore args) (f args) ;;;
       after_chain_args Op (rev (L :: Rest)) args ;;; ret ReturnedVoid) s =
      (inside <- (before_chain Op Rest args ;;;
                  invoke (CallCore args) (f args) ;;;
                  after_chain_args Op (rev Rest) args ;;; ret ReturnedVoid) ;;;
       own_after Op L args inside) s).
    { intros s. unfold bind, ret.
      destruct (before_chain Op Rest args s) as [[[] | e |] s1]; try reflexivity.
      destruct (invoke (CallCore args) (f args) s1) as [[[] | e |] s2]; try reflexivity.
      change (rev (L :: Rest)) with (rev Rest ++ [L]).
      rewrite after_chain_args_app. unfold bind.
      destruct (after_chain_args Op (rev Rest) args s2) as [[[] | e |] s3]; try reflexivity.
      simpl. destruct (resolved_after_args Op L) as [h |]; [| reflexivity].
      unfold bind, ret.
      destruct (invoke _ _ s3) as [[[] | e |] s4]; reflexivity. }
    destruct (resolved_before Op L) as [h |].
    + rewrite bind_assoc. apply bind_ext; [reflexivity |]. intros _ s'. apply Hin.
    + rewrite bind_ret_l. apply Hin.
  - assert (Hin : forall s,
      (before_chain Op Rest args ;;;
       result <- invoke (CallCore args) (f args) ;;;
       final <- after_chain_result Op (rev (L :: Rest)) args result ;;;
       ret (ReturnedValue final)) s =
      (inside <- (before_chain Op Rest args ;;;
                  result <- invoke (CallCore args) (f args) ;;;
                  final <- after_chain_result Op (rev Rest) args result ;;;
                  ret (ReturnedValue final)) ;;;
       own_after Op L args inside) s).
    { intros s. unfold bind, ret.
      destruct (before_chain Op Rest args s) as [[[] | e |] s1]; try reflexivity.
      destruct (invoke (CallCore args) (f args) s1) as [[r | e |] s2]; try reflexivity.
      change (rev (L :: Rest)) with (rev Rest ++ [L]).
      rewrite after_chain_result_app. unfold bind.
      destruct (after_chain_result Op (rev Rest) args r s2) as [[r1 | e |] s3]; try reflexivity.
      simpl. destruct (resolved_after_result Op L) as [h |]; [| reflexivity].
      unfold bind, ret.
      destruct (invoke _ _ s3) as [[r2 | e |] s4]; reflexivity. }
    destruct (resolved_before Op L) as [h |].
    + rewrite bind_assoc. apply bind_ext; [reflexivity |]. intros _ s'. apply Hin.
    + rewrite bind_ret_l. apply Hin.
Qed.

Lemma Exec_run_through Layers Op (func : Func A V W Exn) args (p : Prog A V W Exn (Returned V)) :
  Exec Layers Op func args = Built p ->
  forall st, p st = run_through Op Layers func args st.
Proof.
  intros Hp. destruct func as [f | f].
  - apply Exec_void_chain in Hp as (_ & _ & Hp). exact Hp.
  - apply Exec_value_chain in Hp as (_ & Hp). exact Hp.
Qed.

Lemma run_through_nil Op (func : Func A V W Exn) args st :
  run_through Op [] func args st = direct_call func args st.
Proof.
  destruct func as [f | f]; unfold run_through, direct_call; simpl; rewrite bind_ret_l.
  - apply bind_ext; [reflexivity |]. intros [] s1. reflexivity.
  - apply bind_ext; [reflexivity |]. intros r s1. reflexivity.
Qed.

(** X3.  The first layer of the list is the outermost wrapper: the pipeline
    is its before hook, then what the other layers do around the wrapped
    function, then its after hook on what that returned.  What the other
    layers do is what the pipeline without the first layer does, where
    that one builds; it does not for the only layer of a void operation,
    and there the inside is the call of the wrapped function alone. *)
Theorem Exec_first_layer_is_outermost L Rest Op (func : Func A V W Exn) args
    (p : Prog A V W Exn (Returned V)) :
  Exec (L :: Rest) Op func args = Built p ->
  (forall st, p st = around Op L args (run_through Op Rest func args) st) /\
  (forall q : Prog A V W Exn (Returned V),
     Exec Rest Op func args = Built q ->
     (forall st, q st = run_through Op Rest func args st) /\
     (forall st, p st = around Op L args q st)) /\
  (Rest = [] -> forall st, p st = around Op L args (direct_call func args) st).
Proof.
  intros Hp.
  assert (Hfirst : forall st, p st = around Op L args (run_through Op Rest func args) st).
  { intros st. rewrite (Exec_run_through _ _ _ _ _ Hp). apply run_through_cons. }
  split; [exact Hfirst |]. split.
  - intros q Hq. pose proof (Exec_run_through _ _ _ _ _ Hq) as Hinner.
    split; [exact Hinner |]. intros st. rewrite Hfirst.
    symmetry. apply around_ext. exact Hinner.
  - intros -> st. rewrite Hfirst. apply around_ext. intros s. apply run_through_nil.
Qed.

(** X4.  When the resolved after hook of a layer throws, the run ends there
    with that exception: the after hooks of the layers later in the list
    have run, those of the layers earlier in the list are not called, and
    no result is returned. *)
Theorem Exec_after_hook_throws pre Lj post Op (f : A -> W -> outcome Exn V * W) args
    (p : Prog A V W Exn (Returned V)) st st1 st3 (u : unit) (result r1 : V) (w2 w4 : W) (e : Exn)
    (h : V -> A -> W -> outcome Exn V * W) :
  Exec (pre ++ Lj :: post) Op (ValueFunc f) args = Built p ->
  resolved_after_result Op Lj = Some h ->
  before_chain Op (pre ++ Lj :: post) args st = (Normal u, st1) ->
  f args (world st1) = (Normal result, w2) ->
  after_chain_result Op (rev post) args result
    {| world := w2; calls := calls st1 ++ [CallCore args] |} = (Normal r1, st3) ->
  h r1 args (world st3) = (Thrown e, w4) ->
  p st =
  (Thrown e,
   {| world := w4; calls := calls st3 ++ [CallAfter (layer_name Lj) (Some r1) args] |}).
Proof.
  intros HExec Hres Hb Hcore Hafter Hthrow.
  apply Exec_value_chain in HExec as (_ & Hp). rewrite Hp.
  rewrite (bind_Normal_l _ _ _ _ _ Hb).
  rewrite (bind_Normal_l _ _ _ _ _ (invoke_run _ _ _ _ (CallCore args) _ _ _ _ Hcore)).
  apply bind_Thrown_l.
  rewrite rev_middle, after_chain_result_app.
  rewrite (bind_Normal_l _ _ _ _ _ Hafter). simpl. rewrite Hres.
  apply bind_Thrown_l, invoke_run, Hthrow.
Qed.

(** *** Every run is an initial part of the faultless one *)

Lemma before_chain_prefix Op order args st (o : outcome Exn unit) st' :
  before_chain Op order args st = (o, st') ->
  exists made,
    calls st' = calls st ++ made /\
    (map tag_of made `prefix_of`
       map TagBefore (names (List.filter (has_resolved_before Op) order))) /\
    (forall x, o = Normal x ->
       map tag_of made = map TagBefore (names (List.filter (has_resolved_before Op) order))).
Proof.
  unfold names. revert st. induction order as [| L later IH]; intros st H; simpl in *.
  - injection H as <- <-. exists []. rewrite app_nil_r.
    split; [reflexivity |]. split; [apply prefix_nil | reflexivity].
  - destruct (resolved_before Op L) as [h |] eqn:Hres.
    + assert (Hhas : has_resolved_before Op L = true).
      { unfold has_resolved_before. rewrite Hres. apply bool_decide_eq_true_2. eauto. }
      rewrite Hhas. unfold bind in H.
      destruct (invoke (CallBefore (layer_name L) args) (h args) st) as [[[] | e |] s1] eqn:H1;
        apply invoke_inv in H1 as [_ H1].
      * apply IH in H as (made & H2 & Hpre & Hall).
        exists (CallBefore (layer_name L) args :: made). split; [| split].
        -- rewrite H2, H1, <- app_assoc. reflexivity.
        -- simpl. apply prefix_cons, Hpre.
        -- intros x Hx. simpl. rewrite (Hall x Hx). reflexivity.
      * injection H as <- <-. exists [CallBefore (layer_name L) args].
        split; [exact H1 |]. split; [apply prefix_cons, prefix_nil | discriminate].
      * injection H as <- <-. exists [CallBefore (layer_name L) args].
        split; [exact H1 |]. split; [apply prefix_cons, prefix_nil | discriminate].
    + assert (Hhas : has_resolved_before Op L = false).
      { unfold has_resolved_before. rewrite Hres. apply bool_decide_eq_false_2.
        intros [? ?]; discriminate. }
      rewrite Hhas. eauto.
Qed.

Lemma after_chain_result_prefix Op order args (result : V) st (o : outcome Exn V) st' :
  after_chain_result Op order args result st = (o, st') ->
  exists made,
    calls st' = calls st ++ made /\
    (map tag_of made `prefix_of`
       map TagAfter (names (List.filter
         (fun L => bool_decide (is_Some (resolved_after_result Op L))) order))) /\
    (forall x, o = Normal x ->
       map tag_of made =
       map TagAfter (names (List.filter
         (fun L => bool_decide (is_Some (resolved_after_result Op L))) order))).
Proof.
  unfold names. revert result st. induction order as [| L later IH]; intros result st H; simpl in *.
  - injection H as <- <-. exists []. rewrite app_nil_r.
    split; [reflexivity |]. split; [apply prefix_nil | reflexivity].
  - destruct (resolved_after_result Op L) as [h |].
    + rewrite bool_decide_eq_true_2 by eauto. unfold bind in H.
      destruct (invoke (CallAfter (layer_name L) (Some result) args) (h result args) st)
        as [[r | e |] s1] eqn:H1; apply invoke_inv in H1 as [_ H1].
      * apply IH in H as (made & H2 & Hpre & Hall).
        exists (CallAfter (layer_name L) (Some result) args :: made). split; [| split].
        -- rewrite H2, H1, <- app_assoc. reflexivity.
        -- simpl. apply prefix_cons, Hpre.
        -- intros x Hx. simpl. rewrite (Hall x Hx). reflexivity.
      * injection H as <- <-. exists [CallAfter (layer_name L) (Some result) args].
        split; [exact H1 |]. split; [apply prefix_cons, prefix_nil | discriminate].
      * injection H as <- <-. exists [CallAfter (layer_name L) (Some result) args].
        split; [exact H1 |]. split; [apply prefix_cons, prefix_nil | discriminate].
    + rewrite bool_decide_eq_false_2 by (intros [? ?]; discriminate). eauto.
Qed.

Lemma after_chain_args_prefix Op order args st (o : outcome Exn unit) st' :
  after_chain_args Op order args st = (o, st') ->
  exists made,
    calls st' = calls st ++ made /\
    (map tag_of made `prefix_of`
       map TagAfter (names (List.filter
         (fun L => bool_decide (is_Some (resolved_after_args Op L))) order))) /\
    (forall x, o = Normal x ->
       map tag_of made =
       map TagAfter (names (List.filter
         (fun L => bool_decide (is_Some (resolved_after_args Op L))) order))).
Proof.
  unfold names. revert st. induction order as [| L later IH]; intros st H; simpl in *.
  - injection H as <- <-. exists []. rewrite app_nil_r.
    split; [reflexivity |]. split; [apply prefix_nil | reflexivity].
  - destruct (resolved_after_args Op L) as [h |].
    + rewrite bool_decide_eq_true_2 by eauto. unfold bind in H.
      destruct (invoke (CallAfter (layer_name L) None args) (h args) st)
        as [[[] | e |] s1] eqn:H1; apply invoke_inv in H1 as [_ H1].
      * apply IH in H as (made & H2 & Hpre & Hall).
        exists (CallAfter (layer_name L) None args :: made). split; [| split].
        -- rewrite H2, H1, <- app_assoc. reflexivity.
        -- simpl. apply prefix_cons, Hpre.
        -- intros x Hx. simpl. rewrite (Hall x Hx). reflexivity.
      * injection H as <- <-. exists [CallAfter (layer_name L) None args].
        split; [exact H1 |]. split; [apply prefix_cons, prefix_nil | discriminate].
      * injection H as <- <-. exists [CallAfter (layer_name L) None args].
        split; [exact H1 |]. split; [apply prefix_cons, prefix_nil | discriminate].
    + rewrite bool_decide_eq_false_2 by (intros [? ?]; discriminate). eauto.
Qed.

Lemma nominal_after_tags Op Layers (by_hook : Layer A V W Exn -> bool) :
  (forall L, has_resolved_after Op L = by_hook L) ->
  map TagAfter (names (List.filter by_hook (rev Layers))) =
  map TagAfter (rev (names (List.filter (has_resolved_after Op) Layers))).
Proof.
  intros Hsame. rewrite (List.filter_ext _ _ Hsame Layers).
  unfold names. rewrite List.filter_rev, !map_rev. reflexivity.
Qed.

(** *** Where a run that faults stops *)

Lemma raise_not_Normal {X : Type} (f : Fault Exn) (x : X) : raise f <> Normal x.
Proof. destruct f; discriminate. Qed.

Lemma raise_cases {X : Type} (o : outcome Exn X) :
  (exists x, o = Normal x) \/ (exists f, o = raise f).
Proof.
  destruct o as [x | e |]; [left; eauto | right; exists (Throws e); reflexivity |
                            right; exists Terminates; reflexivity].
Qed.

Lemma raise_retyped {X Y : Type} (f f' : Fault Exn) :
  @raise Exn X f = raise f' -> @raise Exn Y f = raise f'.
Proof. destruct f, f'; simpl; congruence. Qed.

Lemma bind_raise_l {St X Y : Type} (m : M St Exn X) (k : X -> M St Exn Y) (s s1 : St)
    (f : Fault Exn) :
  m s = (raise f, s1) -> bind m k s = (raise f, s1).
Proof. intros H. unfold bind. rewrite H. destruct f; reflexivity. Qed.

Lemma before_chain_fault Op order args (f : Fault Exn) :
  forall st st',
  before_chain Op order args st = (raise f, st') ->
  exists pre L post h st1,
    order = pre ++ L :: post /\
    resolved_before Op L = Some h /\
    before_chain Op pre args st = (Normal tt, st1) /\
    h args (world st1) = (raise f, world st') /\
    calls st' = calls st1 ++ [CallBefore (layer_name L) args].
Proof.
  induction order as [| L later IH]; intros st st' H; simpl in H.
  - symmetry in H. injection H as H _. destruct (raise_not_Normal _ _ H).
  - destruct (resolved_before Op L) as [h |] eqn:Hres.
    + unfold bind in H.
      destruct (invoke (CallBefore (layer_name L) args) (h args) st) as [o1 s1] eqn:H1.
      destruct (raise_cases o1) as [[[] ->] | [f1 ->]].
      * apply IH in H as (pre & Lf & post & hf & st1 & -> & Hf & Hpre & Hh & Hcalls).
        exists (L :: pre), Lf, post, hf, st1.
        split; [reflexivity |]. split; [exact Hf |].
        split; [| split; assumption].
        simpl. rewrite Hres. unfold bind. rewrite H1. exact Hpre.
      * assert (Hsame : (@raise Exn unit f1, s1) = (raise f, st')).
        { destruct f1; exact H. }
        injection Hsame as Hf <-. rewrite Hf in H1.
        apply invoke_inv in H1 as [Hh Hcalls].
        exists [], L, later, h, st. repeat split; assumption.
    + apply IH in H as (pre & Lf & post & hf & st1 & -> & Hf & Hpre & Hh & Hcalls).
      exists (L :: pre), Lf, post, hf, st1.
      split; [reflexivity |]. split; [exact Hf |].
      split; [| split; assumption].
      simpl. rewrite Hres. exact Hpre.
Qed.

Lemma after_chain_result_fault Op order args (f : Fault Exn) :
  forall (result : V) st st',
  after_chain_result Op order args result st = (raise f, st') ->
  exists done L later handed st3 h,
    order = done ++ L :: later /\
    after_chain_result Op done args result st = (Normal handed, st3) /\
    resolved_after_result Op L = Some h /\
    h handed args (world st3) = (raise f, world st') /\
    calls st' = calls st3 ++ [CallAfter (layer_name L) (Some handed) args].
Proof.
  induction order as [| L later IH]; intros result st st' H; simpl in H.
  - symmetry in H. injection H as H _. destruct (raise_not_Normal _ _ H).
  - destruct (resolved_after_result Op L) as [h |] eqn:Hres.
    + unfold bind in H.
      destruct (invoke (CallAfter (layer_name L) (Some result) args) (h result args) st)
        as [o1 s1] eqn:H1.
      destruct (raise_cases o1) as [[r ->] | [f1 ->]].
      * apply IH in H as (done & Lf & rest & handed & st3 & hf & -> & Hdone & Hf & Hh & Hcalls).
        exists (L :: done), Lf, rest, handed, st3, hf.
        split; [reflexivity |]. split; [| split; [exact Hf | split; assumption]].
        simpl. rewrite Hres. unfold bind. rewrite H1. exact Hdone.
      * assert (Hsame : (@raise Exn V f1, s1) = (raise f, st')).
        { destruct f1; exact H. }
        injection Hsame as Hf <-. rewrite Hf in H1.
        apply invoke_inv in H1 as [Hh Hcalls].
        exists [], L, later, result, st, h. repeat split; assumption.
    + apply IH in H as (done & Lf & rest & handed & st3 & hf & -> & Hdone & Hf & Hh & Hcalls).
      exists (L :: done), Lf, rest, handed, st3, hf.
      split; [reflexivity |]. split; [| split; [exact Hf | split; assumption]].
      simpl. rewrite Hres. exact Hdone.
Qed.

Lemma after_chain_args_fault Op order args (f : Fault Exn) :
  forall st st',
  after_chain_args Op order args st = (raise f, st') ->
  exists done L later st3 h,
    order = done ++ L :: later /\
    after_chain_args Op done args st = (Normal tt, st3) /\
    resolved_after_args Op L = Some h /\
    h args (world st3) = (raise f, world st') /\
    calls st' = calls st3 ++ [CallAfter (layer_name L) None args].
Proof.
  induction order as [| L later IH]; intros st st' H; simpl in H.
  - symmetry in H. injection H as H _. destruct (raise_not_Normal _ _ H).
  - destruct (resolved_after_args Op L) as [h |] eqn:Hres.
    + unfold bind in H.
      destruct (invoke (CallAfter (layer_name L) None args) (h args) st) as [o1 s1] eqn:H1.
      destruct (raise_cases o1) as [[[] ->] | [f1 ->]].
      * apply IH in H as (done & Lf & rest & st3 & hf & -> & Hdone & Hf & Hh & Hcalls).
        exists (L :: done), Lf, rest, st3, hf.
        split; [reflexivity |]. split; [| split; [exact Hf | split; assumption]].
        simpl. rewrite Hres. unfold bind. rewrite H1. exact Hdone.
      * assert (Hsame : (@raise Exn unit f1, s1) = (raise f, st')).
        { destruct f1; exact H. }
        injection Hsame as Hf <-. rewrite Hf in H1.
        apply invoke_inv in H1 as [Hh Hcalls].
        exists [], L, later, st, h. repeat split; assumption.
    + apply IH in H as (done & Lf & rest & st3 & hf & -> & Hdone & Hf & Hh & Hcalls).
      exists (L :: done), Lf, rest, st3, hf.
      split; [reflexivity |]. split; [| split; [exact Hf | split; assumption]].
      simpl. rewrite Hres. exact Hdone.
Qed.

Lemma rev_split (order : list (Layer A V W Exn)) done L later :
  rev order = done ++ L :: later -> order = rev later ++ L :: rev done.
Proof.
  intros H. rewrite <- (rev_involutive order), H, rev_middle. reflexivity.
Qed.

Lemma invoke_Normal_state {X : Type} (c : Call A V) (code : W -> outcome Exn X * W) st (x : X) st' :
  invoke c code st = (Normal x, st') ->
  exists w', code (world st) = (Normal x, w') /\
             st' = {| world := w'; calls := calls st ++ [c] |}.
Proof.
  unfold invoke. destruct (code (world st)) as [o w']. intros [= -> <-]. eauto.
Qed.

Lemma run_through_stopped_at Layers Op (func : Func A V W Exn) args st (f : Fault Exn) st' :
  run_through Op Layers func args st = (raise f, st') ->
  stopped_at Op Layers func args st f st'.
Proof.
  intros Hrun. unfold stopped_at. destruct func as [fn | fn]; simpl in Hrun.
  - unfold bind at 1 in Hrun.
    destruct (before_chain Op Layers args st) as [ob s1] eqn:Hb.
    destruct (raise_cases ob) as [[[] ->] | [f1 ->]].
    2:{ left. assert (Hsame : (@raise Exn unit f1, s1) = (raise f, st')).
        { destruct f1, f; simpl in *; congruence. }
        injection Hsame as Hf <-. rewrite Hf in Hb.
        exact (before_chain_fault _ _ _ _ _ _ Hb). }
    right. unfold bind at 1 in Hrun.
    destruct (invoke (CallCore args) (fn args) s1) as [oc s2] eqn:Hc.
    destruct (raise_cases oc) as [[[] ->] | [f1 ->]].
    2:{ left. exists s1. split; [reflexivity |].
        assert (Hsame : (@raise Exn unit f1, s2) = (raise f, st')).
        { destruct f1, f; simpl in *; congruence. }
        injection Hsame as Hf <-. rewrite Hf in Hc.
        apply invoke_inv in Hc as [Hcore Hcalls]. split; assumption. }
    right. apply invoke_Normal_state in Hc as (w2 & Hcore & ->).
    unfold bind, ret in Hrun.
    destruct (after_chain_args Op (rev Layers) args _) as [oa s3] eqn:Ha.
    destruct (raise_cases oa) as [[[] ->] | [f1 ->]].
    { symmetry in Hrun. injection Hrun as Hrun _. destruct (raise_not_Normal _ _ Hrun). }
    assert (Hsame : (@raise Exn unit f1, s3) = (raise f, st')).
    { destruct f1, f; simpl in *; congruence. }
    injection Hsame as Hf <-. rewrite Hf in Ha.
    apply after_chain_args_fault in Ha as (done & L & later & st3 & h & Hrev & Hdone & Hres & Hh & Hcalls).
    apply rev_split in Hrev.
    exists (rev later), L, (rev done), s1. split; [exact Hrev |]. split; [reflexivity |].
    exists w2, st3, h. rewrite rev_involutive. repeat split; assumption.
  - unfold bind at 1 in Hrun.
    destruct (before_chain Op Layers args st) as [ob s1] eqn:Hb.
    destruct (raise_cases ob) as [[[] ->] | [f1 ->]].
    2:{ left. assert (Hsame : (@raise Exn unit f1, s1) = (raise f, st')).
        { destruct f1, f; simpl in *; congruence. }
        injection Hsame as Hf <-. rewrite Hf in Hb.
        exact (before_chain_fault _ _ _ _ _ _ Hb). }
    right. unfold bind at 1 in Hrun.
    destruct (invoke (CallCore args) (fn args) s1) as [oc s2] eqn:Hc.
    destruct (raise_cases oc) as [[r ->] | [f1 ->]].
    2:{ left. exists s1. split; [reflexivity |].
        assert (Hsame : (@raise Exn V f1, s2) = (raise f, st')).
        { destruct f1, f; simpl in *; congruence. }
        injection Hsame as Hf <-. rewrite Hf in Hc.
        apply invoke_inv in Hc as [Hcore Hcalls]. split; assumption. }
    right. apply invoke_Normal_state in Hc as (w2 & Hcore & ->).
    unfold bind, ret in Hrun.
    destruct (after_chain_result Op (rev Layers) args r _) as [oa s3] eqn:Ha.
    destruct (raise_cases oa) as [[r' ->] | [f1 ->]].
    { symmetry in Hrun. injection Hrun as Hrun _. destruct (raise_not_Normal _ _ Hrun). }
    assert (Hsame : (@raise Exn V f1, s3) = (raise f, st')).
    { destruct f1, f; simpl in *; congruence. }
    injection Hsame as Hf <-. rewrite Hf in Ha.
    apply after_chain_result_fault in Ha
      as (done & L & later & handed & st3 & h & Hrev & Hdone & Hres & Hh & Hcalls).
    apply rev_split in Hrev.
    exists (rev later), L, (rev done), s1. split; [exact Hrev |]. split; [reflexivity |].
    exists r, w2, handed, st3, h. rewrite rev_involutive. repeat split; assumption.
Qed.

(** X5.  However a run through the pipeline ends, the calls it made are an
    initial part of the calls of the faultless run: no hook and not the
    wrapped function is called twice or out of order.  A run that returns
    has made all of these calls.  A run that ends in an exception or in
    termination stopped at the call that faulted: that call is the
    resolved before hook of a layer, the wrapped function, or the resolved
    after hook of a layer; every call before it returned; it is the last
    call made, and the world is as it left it. *)
Theorem Exec_calls_are_a_prefix Layers Op (func : Func A V W Exn) args
    (p : Prog A V W Exn (Returned V)) st (o : outcome Exn (Returned V)) st' :
  Exec Layers Op func args = Built p ->
  p st = (o, st') ->
  (exists made,
     calls st' = calls st ++ made /\
     map tag_of made `prefix_of` nominal_tags Op Layers /\
     (forall x, o = Normal x -> map tag_of made = nominal_tags Op Layers)) /\
  (forall f : Fault Exn, o = raise f -> stopped_at Op Layers func args st f st').
Proof.
  intros HExec Hrun. split.
  2:{ intros f ->. rewrite (Exec_run_through _ _ _ _ _ HExec) in Hrun.
      exact (run_through_stopped_at _ _ _ _ _ _ _ Hrun). }
  unfold nominal_tags. destruct func as [f | f].
  - apply Exec_void_chain in HExec as (HRT & _ & Hp).
    rewrite Hp in Hrun. unfold bind in Hrun.
    destruct (before_chain Op Layers args st) as [ob s1] eqn:Hb.
    apply before_chain_prefix in Hb as (made1 & Hb & Hpre1 & Hall1).
    destruct ob as [[] | e |];
      [| injection Hrun as <- <-; exists made1;
         split; [exact Hb | split; [apply prefix_app_r, Hpre1 | discriminate]] ..].
    rewrite <- (Hall1 tt eq_refl).
    destruct (invoke (CallCore args) (f args) s1) as [oc s2] eqn:Hc.
    apply invoke_inv in Hc as [_ Hc].
    assert (Hcore : calls s2 = calls st ++ (made1 ++ [CallCore args])).
    { rewrite Hc, Hb, <- app_assoc. reflexivity. }
    destruct oc as [[] | e |];
      [| injection Hrun as <- <-; exists (made1 ++ [CallCore args]); split; [exact Hcore |];
         split; [| discriminate];
         rewrite map_app; apply prefix_app; simpl; apply prefix_cons, prefix_nil ..].
    destruct (after_chain_args Op (rev Layers) args s2) as [oa s3] eqn:Ha.
    apply after_chain_args_prefix in Ha as (made3 & Ha & Hpre3 & Hall3).
    rewrite (nominal_after_tags Op Layers) in Hpre3, Hall3
      by (intros L; unfold has_resolved_after; rewrite HRT; reflexivity).
    exists (made1 ++ [CallCore args] ++ made3). split; [| split].
    + destruct oa as [[] | e |]; injection Hrun as _ <-;
        rewrite Ha, Hcore, <- !app_assoc; reflexivity.
    + rewrite !map_app. apply prefix_app. simpl. apply prefix_cons, Hpre3.
    + intros x Hx. rewrite !map_app. simpl.
      destruct oa as [[] | e |]; [| injection Hrun as <- _; discriminate Hx ..].
      rewrite (Hall3 tt eq_refl). reflexivity.
  - apply Exec_value_chain in HExec as (HRT & Hp).
    rewrite Hp in Hrun. unfold bind in Hrun.
    destruct (before_chain Op Layers args st) as [ob s1] eqn:Hb.
    apply before_chain_prefix in Hb as (made1 & Hb & Hpre1 & Hall1).
    destruct ob as [[] | e |];
      [| injection Hrun as <- <-; exists made1;
         split; [exact Hb | split; [apply prefix_app_r, Hpre1 | discriminate]] ..].
    rewrite <- (Hall1 tt eq_refl).
    destruct (invoke (CallCore args) (f args) s1) as [oc s2] eqn:Hc.
    apply invoke_inv in Hc as [_ Hc].
    assert (Hcore : calls s2 = calls st ++ (made1 ++ [CallCore args])).
    { rewrite Hc, Hb, <- app_assoc. reflexivity. }
    destruct oc as [r | e |];
      [| injection Hrun as <- <-; exists (made1 ++ [CallCore args]); split; [exact Hcore |];
         split; [| discriminate];
         rewrite map_app; apply prefix_app; simpl; apply prefix_cons, prefix_nil ..].
    destruct (after_chain_result Op (rev Layers) args r s2) as [oa s3] eqn:Ha.
    apply after_chain_result_prefix in Ha as (made3 & Ha & Hpre3 & Hall3).
    rewrite (nominal_after_tags Op Layers) in Hpre3, Hall3
      by (intros L; unfold has_resolved_after; rewrite HRT; reflexivity).
    exists (made1 ++ [CallCore args] ++ made3). split; [| split].
    + destruct oa as [r' | e |]; injection Hrun as _ <-;
        rewrite Ha, Hcore, <- !app_assoc; reflexivity.
    + rewrite !map_app. apply prefix_app. simpl. apply prefix_cons, Hpre3.
    + intros x Hx. rewrite !map_app. simpl.
      destruct oa as [r' | e |]; [| injection Hrun as <- _; discriminate Hx ..].
      rewrite (Hall3 r' eq_refl). reflexivity.
Qed.

(** X7.  The generic probe looks at [Impl<void>] and the call goes to
    [Impl<Op>]: a layer whose [Impl<void>::Before] takes the arguments
    while its [Impl<Op>] has no [Before] that does stops the build of every
    pipeline it is in. *)
Theorem Exec_generic_probe_without_member Layers L Op (func : Func A V W Exn) args :
  In L Layers ->
  has_specific_before_impl L Op = false ->
  has_generic_before_impl L = true ->
  (forall m, member_Before L (OpArg Op) = Some m -> before_call m = None) ->
  Exec Layers Op func args = BuildError.
Proof.
  intros Hin Hspecific Hgeneric Hmember.
  destruct (Exec Layers Op func args) as [p |] eqn:HExec; [| reflexivity].
  apply Exec_Built_fit in HExec as (_ & Hfit & _).
  rewrite List.Forall_forall in Hfit. destruct (Hfit L Hin) as [Hbefore _].
  unfold resolved_before in Hbefore. rewrite Hspecific, Hgeneric in Hbefore.
  destruct (Hbefore eq_refl) as [h Hh]. cbn [orb] in Hh.
  destruct (member_Before L (OpArg Op)) as [m |]; cbn in Hh; [| discriminate Hh].
  rewrite (Hmember m eq_refl) in Hh. discriminate Hh.
Qed.

End PipelineMore.

(** ** [LayerFilter] and the utilities over a pack *)

Section FilterMore.

Context {Name : Type}.

Variable specialisation : util.Ty Name -> option bool.

Implicit Types (Layers Packed : list (util.Ty Name)).

Lemma filter_twice {X : Type} (keep : X -> bool) (l : list X) :
  List.filter keep (List.filter keep l) = List.filter keep l.
Proof.
  induction l as [| x l IH]; simpl; [reflexivity |].
  destruct (keep x) eqn:Hx; simpl; [rewrite Hx, IH |]; auto.
Qed.

Lemma LayerFilter_is_some_filter Layers :
  exists Input,
    util.LayerFilter specialisation Layers =
    util.Strata (List.filter (util.IsLayerEnabled specialisation) Input).
Proof.
  unfold util.LayerFilter, util.LayerFilterImpl.
  destruct Layers as [| [n | Packed] [| Second Others]];
    eexists; apply EnabledLayers_filter.
Qed.

(** X8.  Only a [LayerPack] that is the single argument is opened.  In every
    other argument list each argument is taken as a layer type, a pack
    among them too, and is kept or dropped by its own [LayerTraits]. *)
Theorem LayerFilter_of_several_arguments Layers :
  (forall Packed, Layers <> [util.LayerPack Packed]) ->
  util.LayerFilter specialisation Layers =
  util.Strata (List.filter (util.IsLayerEnabled specialisation) Layers).
Proof.
  intros Hnot. unfold util.LayerFilter, util.LayerFilterImpl.
  destruct Layers as [| [n | Packed] [| Second Others]];
    try apply EnabledLayers_filter.
  destruct (Hnot Packed eq_refl).
Qed.

(** X9.  Filtering what a filter produced changes nothing. *)
Theorem LayerFilter_again Layers :
  util.LayerFilter specialisation
    [util.LayerPack (util.Layers_of (util.LayerFilter specialisation Layers))] =
  util.LayerFilter specialisation Layers.
Proof.
  destruct (LayerFilter_is_some_filter Layers) as [Input ->].
  cbn [util.Layers_of]. unfold util.LayerFilter, util.LayerFilterImpl.
  rewrite EnabledLayers_filter, filter_twice. reflexivity.
Qed.

(** X10.  [CountEnabledLayers] of a pack is the number of layers of the pipeline
    [LayerFilter] makes of it, and [AnyLayersEnabled] says whether that
    pipeline has a layer at all. *)
Theorem CountEnabledLayers_is_length_of_filter Packed :
  LayerPackHelper.CountEnabledLayers specialisation (util.LayerPack Packed) =
    Built (length (util.Layers_of (util.LayerFilter specialisation [util.LayerPack Packed]))) /\
  LayerPackHelper.AnyLayersEnabled specialisation (util.LayerPack Packed) =
    Built (negb (Nat.eqb
      (length (util.Layers_of (util.LayerFilter specialisation [util.LayerPack Packed]))) 0)).
Proof.
  unfold LayerPackHelper.CountEnabledLayers, LayerPackHelper.AnyLayersEnabled,
    LayerPackHelper.ApplyValue, util.LayerFilter, util.LayerFilterImpl.
  rewrite EnabledLayers_filter. cbn [util.Layers_of].
  split; f_equal.
  - induction Packed as [| First Rest IH]; simpl; [reflexivity |].
    rewrite IH. destruct (util.IsLayerEnabled specialisation First); reflexivity.
  - induction Packed as [| First Rest IH]; simpl; [reflexivity |].
    rewrite IH. destruct (util.IsLayerEnabled specialisation First); reflexivity.
Qed.

(** X11.  [EnabledLayerInfo] of a pack has one entry per layer of the pack, and
    the layers at its [true] entries are the layers of the pipeline
    [LayerFilter] makes of the pack. *)
Theorem EnabledLayerInfo_selects_the_filtered Packed :
  exists enabled,
    LayerPackHelper.EnabledLayerInfo specialisation (util.LayerPack Packed) = Built enabled /\
    length enabled = length Packed /\
    LayerPackHelper.select enabled Packed =
    util.Layers_of (util.LayerFilter specialisation [util.LayerPack Packed]).
Proof.
  eexists. split; [reflexivity |]. unfold util.EnabledLayerInfo. split.
  - apply List.length_map.
  - unfold LayerPackHelper.select, util.LayerFilter, util.LayerFilterImpl.
    rewrite EnabledLayers_filter. cbn [util.Layers_of].
    induction Packed as [| First Rest IH]; simpl; [reflexivity |].
    destruct (util.IsLayerEnabled specialisation First); simpl; rewrite IH; reflexivity.
Qed.

End FilterMore.

(** ** [LayerState]: faults and what is kept *)

Section StoreMore.

Variables T W Exn : Type.

Implicit Types (st : LayerState.SState T W Exn).
Implicit Types (observers earlier later : list (LayerState.Observer T W Exn)).

Lemma notify_loop_keeps_store observers :
  forall (first : nat) st (o : outcome Exn unit) st',
  LayerState.notify_loop first observers st = (o, st') ->
  LayerState.store st' = LayerState.store st.
Proof.
  induction observers as [| observer rest IH]; intros first st o st' H; simpl in H.
  - injection H as _ <-. reflexivity.
  - unfold bind, LayerState.call_observer in H.
    destruct (observer _ _) as [[[] | e |] w1].
    + apply IH in H. exact H.
    + injection H as _ <-. reflexivity.
    + injection H as _ <-. reflexivity.
Qed.

Lemma notify_loop_app earlier later (first : nat) st :
  LayerState.notify_loop first (earlier ++ later) st =
  (LayerState.notify_loop first earlier ;;;
   LayerState.notify_loop (first + length earlier) later) st.
Proof.
  revert first st. induction earlier as [| observer rest IH]; intros first st; simpl.
  - rewrite Nat.add_0_r. reflexivity.
  - rewrite bind_assoc. apply bind_ext; [reflexivity |].
    intros _ s'. rewrite IH. replace (S first + length rest) with (first + S (length rest)) by lia.
    reflexivity.
Qed.

Lemma each_once_snoc earlier (observer : LayerState.Observer T W Exn) (value : T) :
  LayerState.each_once 0 (earlier ++ [observer]) value =
  LayerState.each_once 0 earlier value ++ [LayerState.Notify (length earlier) value].
Proof.
  unfold LayerState.each_once. rewrite length_app. simpl.
  rewrite seq_app, map_app. reflexivity.
Qed.

(** Notification stops at the first observer that throws: the observers
    registered before it and it have been called, those registered after it
    are not, and the state is as it was. *)
Lemma notifyObservers_until_throw earlier (observer : LayerState.Observer T W Exn) later
    st st1 (u : unit) (e : Exn) (w2 : W) :
  LayerState.observers_ (LayerState.store st) = earlier ++ observer :: later ->
  LayerState.notify_loop 0 earlier st = (Normal u, st1) ->
  observer (LayerState.data_ (LayerState.store st)) (LayerState.env st1) = (Thrown e, w2) ->
  LayerState.notifyObservers st =
  (Thrown e,
   {| LayerState.store := LayerState.store st;
      LayerState.env := w2;
      LayerState.notified :=
        LayerState.notified st ++
        LayerState.each_once 0 (earlier ++ [observer]) (LayerState.data_ (LayerState.store st)) |}).
Proof.
  intros Hobs Hearlier Hthrow. unfold LayerState.notifyObservers.
  rewrite Hobs, notify_loop_app, (bind_Normal_l _ _ _ _ _ Hearlier).
  apply notify_loop_Normal in Hearlier as [Hstore Hnotified].
  simpl. apply bind_Thrown_l. unfold LayerState.call_observer.
  rewrite Hstore, Hthrow, Hnotified, each_once_snoc, <- app_assoc. reflexivity.
Qed.

(** X12.  Whatever its observers do, [write] leaves the new value in the store
    and the observers registered: a [read] right after a [write(v)] returns
    [v]. *)
Theorem write_then_read (newData : T) st (o : outcome Exn unit) st' :
  LayerState.write newData st = (o, st') ->
  LayerState.read st' = (Normal newData, st') /\
  LayerState.observers_ (LayerState.store st') = LayerState.observers_ (LayerState.store st).
Proof.
  unfold LayerState.write, bind. cbn. intros H.
  apply notify_loop_keeps_store in H. unfold LayerState.read. rewrite H. cbn. auto.
Qed.

(** X13.  An observer that throws during [write] ends the notification: later
    observers are not called, the exception leaves [write], and the new
    value stays written. *)
Theorem write_with_throwing_observer (newData : T) earlier
    (observer : LayerState.Observer T W Exn) later st st1 (u : unit) (e : Exn) (w2 : W) :
  LayerState.observers_ (LayerState.store st) = earlier ++ observer :: later ->
  LayerState.notify_loop 0 earlier
    {| LayerState.store := {| LayerState.data_ := newData;
                              LayerState.observers_ := LayerState.observers_ (LayerState.store st) |};
       LayerState.env := LayerState.env st;
       LayerState.notified := LayerState.notified st |} = (Normal u, st1) ->
  observer newData (LayerState.env st1) = (Thrown e, w2) ->
  LayerState.write newData st =
  (Thrown e,
   {| LayerState.store := {| LayerState.data_ := newData;
                             LayerState.observers_ := LayerState.observers_ (LayerState.store st) |};
      LayerState.env := w2;
      LayerState.notified :=
        LayerState.notified st ++ LayerState.each_once 0 (earlier ++ [observer]) newData |}).
Proof.
  intros Hobs Hearlier Hthrow. unfold LayerState.write.
  rewrite (bind_Normal_l (LayerState.assign_data newData) _ st _ tt eq_refl).
  exact (notifyObservers_until_throw earlier observer later
           {| LayerState.store :=
                {| LayerState.data_ := newData;
                   LayerState.observers_ := LayerState.observers_ (LayerState.store st) |};
              LayerState.env := LayerState.env st;
              LayerState.notified := LayerState.notified st |}
           st1 u e w2 Hobs Hearlier Hthrow).
Qed.



End StoreMore.

(** ** The registry: lookup, removal, clearing, walking *)

Section RegistryMore.

Import LayerStateRegistry RegistryTraversal.

Implicit Types (T : type_index) (key : string) (r : Registry).

Lemma find_state_removeState T key r T' key' :
  find_state T' key' (removeState T key r) =
  if decide (T' = T /\ key' = key) then None else find_state T' key' r.
Proof.
  unfold removeState. destruct (states_ r !! T) as [typeMap |] eqn:HT.
  - unfold find_state. simpl. destruct (decide (T' = T)) as [-> | HT'].
    + rewrite lookup_insert_eq, HT. simpl.
      destruct (decide (key' = key)) as [-> | Hk].
      * rewrite lookup_delete_eq, decide_True by auto. reflexivity.
      * rewrite lookup_delete_ne, decide_False by (congruence || tauto). reflexivity.
    + rewrite lookup_insert_ne, decide_False by (congruence || tauto). reflexivity.
  - case_decide as Hd; [| reflexivity].
    destruct Hd as [-> ->]. unfold find_state. rewrite HT. reflexivity.
Qed.

Lemma find_state_clear T key r : find_state T key (clear r) = None.
Proof. unfold find_state, clear. simpl. rewrite lookup_empty. reflexivity. Qed.

Lemma removeState_consistent T key r : consistent r -> consistent (removeState T key r).
Proof.
  intros [Hbound Hinj].
  assert (Hfresh : fresh_ (removeState T key r) = fresh_ r).
  { unfold removeState. destruct (states_ r !! T); reflexivity. }
  split.
  - intros T' key' p. rewrite find_state_removeState, Hfresh.
    case_decide; [discriminate | apply Hbound].
  - intros T1 key1 T2 key2 p. rewrite !find_state_removeState.
    repeat case_decide; try discriminate. apply Hinj.
Qed.

Lemma clear_consistent r : consistent (clear r).
Proof.
  split.
  - intros T key p. rewrite find_state_clear. discriminate.
  - intros T1 key1 T2 key2 p. rewrite find_state_clear. discriminate.
Qed.

(** X16.  Asking again for the same type and key hands out the same store and
    leaves the registry as it is: a store is made once. *)
Theorem getOrCreateState_again T key r :
  getOrCreateState T key (snd (getOrCreateState T key r)) =
  (fst (getOrCreateState T key r), snd (getOrCreateState T key r)).
Proof.
  assert (Hfound : find_state T key (snd (getOrCreateState T key r)) =
                   Some (fst (getOrCreateState T key r))).
  { rewrite find_state_getOrCreateState, decide_True by auto. reflexivity. }
  destruct (getOrCreateState T key r) as [handle r1]. simpl in *.
  unfold getOrCreateState. rewrite typeMap_lookup, Hfound.
  unfold find_state in Hfound.
  destruct (states_ r1 !! T) as [typeMap |] eqn:HT; [| discriminate].
  simpl. rewrite (insert_id _ _ _ HT). destruct r1; reflexivity.
Qed.

(** X17.  Different keys of one type, and one key under different types, get
    different stores, and getting the second leaves the first where it
    was. *)
Theorem different_contexts_have_different_stores T1 key1 T2 key2 r :
  consistent r ->
  (T1, key1) <> (T2, key2) ->
  fst (getOrCreateState T2 key2 (snd (getOrCreateState T1 key1 r))) <>
  fst (getOrCreateState T1 key1 r) /\
  find_state T1 key1 (snd (getOrCreateState T2 key2 (snd (getOrCreateState T1 key1 r)))) =
  Some (fst (getOrCreateState T1 key1 r)).
Proof.
  intros Hr Hdiff.
  pose proof (getOrCreateState_consistent T1 key1 r Hr) as [Hbound Hinj].
  assert (Hfirst : find_state T1 key1 (snd (getOrCreateState T1 key1 r)) =
                   Some (fst (getOrCreateState T1 key1 r))).
  { rewrite find_state_getOrCreateState, decide_True by auto. reflexivity. }
  destruct (getOrCreateState T1 key1 r) as [first r1]. simpl in *.
  split.
  - rewrite getOrCreateState_fst.
    destruct (find_state T2 key2 r1) as [found |] eqn:Hf.
    + intros ->. destruct (Hinj _ _ _ _ _ Hf Hfirst) as [-> ->]. contradiction.
    + specialize (Hbound _ _ _ Hfirst). lia.
  - rewrite find_state_getOrCreateState, decide_False; [exact Hfirst |].
    intros [-> ->]. contradiction.
Qed.

(** X18.  [removeState] takes out the one store of that type and key and nothing
    else; for a type or key that is not registered it changes no lookup. *)
Theorem removeState_removes_one T key r :
  find_state T key (removeState T key r) = None /\
  (forall T' key', (T', key') <> (T, key) ->
     find_state T' key' (removeState T key r) = find_state T' key' r) /\
  (find_state T key r = None ->
     forall T' key', find_state T' key' (removeState T key r) = find_state T' key' r).
Proof.
  split; [| split].
  - rewrite find_state_removeState, decide_True by auto. reflexivity.
  - intros T' key' Hdiff. rewrite find_state_removeState, decide_False; [reflexivity |].
    intros [-> ->]. contradiction.
  - intros Hnone T' key'. rewrite find_state_removeState.
    case_decide as Hd; [| reflexivity]. destruct Hd as [-> ->]. congruence.
Qed.

(** X19.  After [removeState] or [Clear], asking for a key makes a new store:
    its handle is none of those registered before, so the handles callers
    still hold keep the old stores. *)
Theorem removed_and_cleared_keys_start_afresh T key r :
  consistent r ->
  forall T' key' (held : nat),
    find_state T' key' r = Some held ->
    fst (getOrCreateState T key (removeState T key r)) <> held /\
    fst (getOrCreateState T' key' (clear r)) <> held.
Proof.
  intros [Hbound _] T' key' held Hheld. specialize (Hbound _ _ _ Hheld). split.
  - rewrite getOrCreateState_fst, find_state_removeState, decide_True by auto.
    unfold removeState. destruct (states_ r !! T); simpl; lia.
  - rewrite getOrCreateState_fst, find_state_clear. simpl. lia.
Qed.

(** X20.  Whatever the history of [getOrCreateState], [removeState] and [Clear]
    since process start, no store is registered under two keys and every
    registered handle has been handed out. *)
Theorem every_history_is_consistent (history : list Operation) :
  consistent (after_history history).
Proof.
  unfold after_history.
  assert (Hgen : forall r, consistent r -> consistent (fold_left apply_operation history r)).
  { induction history as [| op rest IH]; intros r Hr; simpl; [exact Hr |].
    apply IH. destruct op as [T key | T key |]; simpl.
    - apply getOrCreateState_consistent, Hr.
    - apply removeState_consistent, Hr.
    - apply clear_consistent. }
  apply Hgen, consistent_instance.
Qed.

(** X21.  [iterateStates<T>] hands each registered key of the type to the
    callback once, with the store registered under it, and nothing else;
    for a type with no map it makes no call. *)
Theorem iterateStates_visits_each_once T r :
  (forall key (p : nat), (key, p) ∈ iterateStates T r <-> find_state T key r = Some p) /\
  NoDup (iterateStates T r).*1 /\
  (states_ r !! T = None -> iterateStates T r = []).
Proof.
  unfold iterateStates, find_state.
  destruct (states_ r !! T) as [typeMap |]; simpl.
  - split; [| split].
    + intros key p. apply elem_of_map_to_list.
    + apply NoDup_fst_map_to_list.
    + discriminate.
  - split; [| split].
    + intros key p. split; [intros H; inversion H | discriminate].
    + constructor.
    + reflexivity.
Qed.

End RegistryMore.

(** ** The further properties on sample programs *)

Section MoreSampleRuns.

Import Samples MoreSamples LayerStateRegistry RegistryTraversal.



(** X3 on [CounterLayer] alone for the void operation, where the pipeline
    without the layer does not build, and on [DoublingLayer,
    IncrementLayer] for the sum. *)
Lemma Exec_first_layer_is_outermost_witness :
  Exec (CounterLayer :: []) LayerOpStore Store (5, 3)%Z =
    Built (built (Exec (CounterLayer :: []) LayerOpStore Store (5, 3)%Z)) /\
  Exec [] LayerOpStore Store (5, 3)%Z = BuildError /\
  built (Exec (CounterLayer :: []) LayerOpStore Store (5, 3)%Z) initial =
    around LayerOpStore CounterLayer (5, 3)%Z (direct_call Store (5, 3)%Z) initial /\
  built (Exec (CounterLayer :: []) LayerOpStore Store (5, 3)%Z) initial =
    (Normal ReturnedVoid,
     {| world := {| operationCount := 1; Log := [8; 8]%Z |};
        calls := [CallBefore "CounterLayer" (5, 3)%Z; CallCore (5, 3)%Z;
                  CallAfter "CounterLayer" None (5, 3)%Z] |}) /\
  Exec (DoublingLayer :: [IncrementLayer]) LayerOpAdd Add (5, 3)%Z =
    Built (built (Exec (DoublingLayer :: [IncrementLayer]) LayerOpAdd Add (5, 3)%Z)) /\
  Exec [IncrementLayer] LayerOpAdd Add (5, 3)%Z =
    Built (built (Exec [IncrementLayer] LayerOpAdd Add (5, 3)%Z)) /\
  built (Exec (DoublingLayer :: [IncrementLayer]) LayerOpAdd Add (5, 3)%Z) initial =
  around LayerOpAdd DoublingLayer (5, 3)%Z
    (built (Exec [IncrementLayer] LayerOpAdd Add (5, 3)%Z)) initial.
Proof.
  split; [reflexivity |]. split; [reflexivity |].
  pose proof (proj2 (proj2 (Exec_first_layer_is_outermost _ _ _ _ CounterLayer []
                              LayerOpStore Store (5, 3)%Z _ eq_refl)) eq_refl initial) as Hvoid.
  split; [exact Hvoid |].
  split; [exact (eq_trans Hvoid eq_refl) |].
  split; [reflexivity |]. split; [reflexivity |].
  exact (proj2 (proj1 (proj2 (Exec_first_layer_is_outermost _ _ _ _ DoublingLayer [IncrementLayer]
                                LayerOpAdd Add (5, 3)%Z _ eq_refl)) _ eq_refl) initial).
Defined.

(** The after hook of [IncrementLayer] has run, that of [RejectingLayer]
    throws, that of [LoggingLayer] is not called. *)
Lemma Exec_after_hook_throws_witness :
  built (Exec ([LoggingLayer] ++ RejectingLayer :: [IncrementLayer]) LayerOpAdd Add (5, 3)%Z)
    initial =
  (Thrown "rejected",
   {| world := {| operationCount := 0; Log := [] |};
      calls := [CallCore (5, 3)%Z; CallAfter "IncrementLayer" (Some 8%Z) (5, 3)%Z;
                CallAfter "RejectingLayer" (Some 9%Z) (5, 3)%Z] |}).
Proof.
  exact (Exec_after_hook_throws _ _ _ _ [LoggingLayer] RejectingLayer [IncrementLayer] LayerOpAdd
           (fun '(a, b) w => (Normal (a + b)%Z, w)) (5, 3)%Z _ initial initial
           {| world := {| operationCount := 0; Log := [] |};
              calls := [CallCore (5, 3)%Z; CallAfter "IncrementLayer" (Some 8%Z) (5, 3)%Z] |}
           tt 8%Z 9%Z {| operationCount := 0; Log := [] |} {| operationCount := 0; Log := [] |}
           "rejected" reject eq_refl eq_refl eq_refl eq_refl eq_refl eq_refl).
Defined.

(** X5 on the three sample layers and a negative argument: the before hook
    of [ValidationLayer] throws, after those of [LoggingLayer] and
    [MetricsLayer] and before anything else. *)
Lemma Exec_calls_are_a_prefix_witness :
  Exec three_layers LayerOpAdd Add (-1, 3)%Z =
    Built (built (Exec three_layers LayerOpAdd Add (-1, 3)%Z)) /\
  built (Exec three_layers LayerOpAdd Add (-1, 3)%Z) initial =
    (Thrown "Negative numbers not allowed",
     snd (built (Exec three_layers LayerOpAdd Add (-1, 3)%Z) initial)) /\
  (exists made,
     calls (snd (built (Exec three_layers LayerOpAdd Add (-1, 3)%Z) initial)) =
       calls initial ++ made /\
     map tag_of made `prefix_of` nominal_tags LayerOpAdd three_layers) /\
  stopped_at LayerOpAdd three_layers Add (-1, 3)%Z initial
    (Throws "Negative numbers not allowed")
    (snd (built (Exec three_layers LayerOpAdd Add (-1, 3)%Z) initial)).
Proof.
  assert (H : built (Exec three_layers LayerOpAdd Add (-1, 3)%Z) initial =
              (Thrown "Negative numbers not allowed",
               snd (built (Exec three_layers LayerOpAdd Add (-1, 3)%Z) initial)))
    by reflexivity.
  split; [reflexivity |]. split; [exact H |].
  destruct (Exec_calls_are_a_prefix _ _ _ _ three_layers LayerOpAdd Add (-1, 3)%Z _ initial _ _
              eq_refl H) as [(made & Hcalls & Hprefix & _) Hstop].
  split; [exists made; split; assumption |].
  exact (Hstop (Throws "Negative numbers not allowed") eq_refl).
Defined.

Lemma Exec_generic_probe_without_member_witness :
  has_specific_before_impl HalfSpecialisedLayer LayerOpAdd = false /\
  has_generic_before_impl HalfSpecialisedLayer = true /\
  Exec [MetricsLayer; HalfSpecialisedLayer] LayerOpAdd Add (5, 3)%Z = BuildError.
Proof.
  split; [reflexivity |]. split; [reflexivity |].
  refine (Exec_generic_probe_without_member _ _ _ _ [MetricsLayer; HalfSpecialisedLayer]
            HalfSpecialisedLayer LayerOpAdd Add (5, 3)%Z _ eq_refl eq_refl _).
  - right. left. reflexivity.
  - intros m Hm. discriminate Hm.
Defined.

(** A pack handed in together with another type is not opened, and
    without traits of its own it is dropped with what it holds. *)
Lemma LayerFilter_of_several_arguments_witness :
  util.LayerFilter test_traits
    [util.LayerPack [util.UserType "Layer1"; util.UserType "Layer2"]; util.UserType "Layer3"] =
  util.Strata [util.UserType "Layer3"].
Proof.
  refine (LayerFilter_of_several_arguments test_traits
            [util.LayerPack [util.UserType "Layer1"; util.UserType "Layer2"]; util.UserType "Layer3"]
            _).
  intros Packed H. discriminate H.
Defined.

Lemma write_then_read_witness :
  LayerState.read (snd (LayerState.write 5%Z guarded_store)) =
    (Normal 5%Z, snd (LayerState.write 5%Z guarded_store)) /\
  LayerState.observers_ (LayerState.store (snd (LayerState.write 5%Z guarded_store))) =
    LayerState.observers_ (LayerState.store guarded_store).
Proof.
  exact (write_then_read _ _ _ 5%Z guarded_store
           (fst (LayerState.write 5%Z guarded_store)) (snd (LayerState.write 5%Z guarded_store))
           eq_refl).
Defined.

Lemma write_with_throwing_observer_witness :
  LayerState.write 5%Z guarded_store =
  (Thrown "observer failed",
   {| LayerState.store := {| LayerState.data_ := 5%Z;
                             LayerState.observers_ := [recorder 1; failing_observer; recorder 2] |};
      LayerState.env := [(1%Z, 5%Z)];
      LayerState.notified := [LayerState.Notify 0 5%Z; LayerState.Notify 1 5%Z] |}).
Proof.
  exact (write_with_throwing_observer _ _ _ 5%Z [recorder 1] failing_observer [recorder 2]
           guarded_store
           {| LayerState.store := {| LayerState.data_ := 5%Z;
                                     LayerState.observers_ :=
                                       [recorder 1; failing_observer; recorder 2] |};
              LayerState.env := [(1%Z, 5%Z)];
              LayerState.notified := [LayerState.Notify 0 5%Z] |}
           tt "observer failed" [(1%Z, 5%Z)] eq_refl eq_refl eq_refl).
Defined.



Lemma different_contexts_have_different_stores_witness :
  fst (getOrCreateState "TestState" "context2"
         (snd (getOrCreateState "TestState" "context1" instance))) <>
  fst (getOrCreateState "TestState" "context1" instance) /\
  find_state "TestState" "context1"
    (snd (getOrCreateState "TestState" "context2"
            (snd (getOrCreateState "TestState" "context1" instance)))) =
  Some (fst (getOrCreateState "TestState" "context1" instance)).
Proof.
  refine (different_contexts_have_different_stores "TestState" "context1" "TestState" "context2"
            instance consistent_instance _).
  intros H. discriminate H.
Defined.

Lemma removed_and_cleared_keys_start_afresh_witness :
  find_state "TestState" "context1" one_store = Some 0 /\
  fst (getOrCreateState "TestState" "context1" (removeState "TestState" "context1" one_store))
    <> 0 /\
  fst (getOrCreateState "TestState" "context1" (clear one_store)) <> 0.
Proof.
  assert (H : find_state "TestState" "context1" one_store = Some 0) by (vm_compute; reflexivity).
  split; [exact H |].
  exact (removed_and_cleared_keys_start_afresh "TestState" "context1" one_store
           (getOrCreateState_consistent "TestState" "context1" instance consistent_instance)
           "TestState" "context1" 0 H).
Defined.

End MoreSampleRuns.
